(** * CTG-Manager: the restricted-channel forwarder, embedded and verified

    A shallow embedding of the C++ sources of the forwarder
    ([channel_resolver.cpp], [client_manager.cpp], [media_handler.cpp],
    [restricted_channel_forwarder.cpp], [utils.cpp]) together with the
    properties its specification states about them.

    Conventions of the embedding:
    - [Int64] and [uint64] values are integers in [Z]; the wrap-around of the
      query id and the range check of [std::stoll] are written out; the
      [int] counters of forwarded and failed messages and the doubled sleep
      interval are not bounded;
    - a function that can throw returns an [Outcome]; undefined behaviour
      (dereferencing a null [object_ptr]) is the outcome [Crash];
    - what the backend answers is not computed by the program: it is an input
      of the functions that talk to it, and the requests sent and the
      handlers called are returned as a trace;
    - the code of a thread is a function of the state it works on; where the
      threads of the media handler meet, their steps are interleaved by an
      explicit schedule, one step per region the code holds a mutex for;
    - logging and the time stamps of the system clock are left out. *)

From Stdlib Require Import ZArith String Ascii List Lia Bool.
From stdpp Require Import base gmap sets list strings pretty sorting.

Local Open Scope string_scope.
Local Open Scope list_scope.
Local Open Scope Z_scope.

(** ** Exceptions and outcomes *)

Inductive exception : Type :=
| runtime_error (what : string)
| ChannelError (what : string)
| MediaError (what : string)
| out_of_range (what : string)
| invalid_argument (what : string)
| future_error (what : string).

Inductive Outcome (A : Type) : Type :=
| Ret (a : A)
| Throw (e : exception)
| Crash.
Arguments Ret {A} a.
Arguments Throw {A} e.
Arguments Crash {A}.

(** What [ClientManager::send_query] hands back to a caller: the response
    object of the expected class, a [td_api::error] object, or nothing before
    the timeout (the call then throws). *)
Inductive QueryResult (A : Type) : Type :=
| Answered (a : A)
| ErrorObject (code : Z) (message_ : string)
| NoResponse.
Arguments Answered {A} a.
Arguments ErrorObject {A} code message_.
Arguments NoResponse {A}.

(** ** The [td_api] objects the forwarder looks at *)

Module td_api.

(** Constructor identifiers of message contents ([content_->get_id()]). *)
Inductive ContentId : Type :=
| messageText | messagePhoto | messageVideo | messageDocument | messageAudio
| messageSticker | messageAnimation | messageVoiceNote | messageVideoNote
| messageOther (n : Z).

#[global] Instance ContentId_eq_dec : EqDecision ContentId.
Proof. solve_decision. Defined.

(** A message content: its constructor, the album id of the photo, video,
    document and audio contents, and its text (the caption of a media
    content). *)
Record MessageContent : Type := {
  get_id : ContentId;
  media_album_id_ : string;
  text_ : string;
}.

Record message : Type := {
  id_ : Z;
  chat_id_ : Z;
  content_ : MessageContent;
}.

#[global] Instance MessageContent_eq_dec : EqDecision MessageContent.
Proof. solve_decision. Defined.

#[global] Instance message_eq_dec : EqDecision message.
Proof. solve_decision. Defined.

End td_api.
Import td_api.

(** [using Message = td_api::object_ptr<td_api::message>]: a pointer that may
    be null. *)
Definition Message : Type := option message.
Definition MessageVector : Type := list Message.

(** ** utils.cpp *)

Definition string_empty (s : string) : bool :=
  match s with EmptyString => true | _ => false end.

Definition album_of (content : MessageContent) : option string :=
  if negb (string_empty (media_album_id_ content))
  then Some (media_album_id_ content)
  else None.

Definition get_media_group_id (m : Message) : option string :=
  match m with
  | None => None
  | Some msg =>
      let content_type := get_id (content_ msg) in
      match content_type with
      | messagePhoto => album_of (content_ msg)
      | messageVideo => album_of (content_ msg)
      | messageDocument => album_of (content_ msg)
      | messageAudio => album_of (content_ msg)
      | _ => None
      end
  end.

Inductive MediaType : Type :=
| Unknown | Photo | Video | Document | Audio | Animation | Sticker
| VoiceNote | VideoNote.

Definition get_media_type (m : Message) : MediaType :=
  match m with
  | None => Unknown
  | Some msg =>
      match get_id (content_ msg) with
      | messagePhoto => Photo
      | messageVideo => Video
      | messageDocument => Document
      | messageAudio => Audio
      | messageAnimation => Animation
      | messageSticker => Sticker
      | messageVoiceNote => VoiceNote
      | messageVideoNote => VideoNote
      | _ => Unknown
      end
  end.

Definition get_caption (m : Message) : string :=
  match m with
  | None => ""
  | Some msg =>
      match get_id (content_ msg) with
      | messageText | messagePhoto | messageVideo | messageDocument
      | messageAudio | messageAnimation | messageVoiceNote => text_ (content_ msg)
      | _ => ""
      end
  end.

(** The test of lines 15-30 of [utils.cpp]; the forwarder has a narrower
    one of its own, on the content type. *)
Module utils.

Definition is_media_message (m : Message) : bool :=
  match m with
  | None => false
  | Some msg =>
      match get_id (content_ msg) with
      | messagePhoto | messageVideo | messageDocument | messageAudio
      | messageAnimation | messageSticker | messageVoiceNote | messageVideoNote => true
      | _ => false
      end
  end.

End utils.

(** ** channel_resolver.cpp *)

Module ChannelResolver.

Definition isdigit (c : ascii) : bool :=
  let n := nat_of_ascii c in (48 <=? n)%nat && (n <=? 57)%nat.

(** [std::isspace] in the C locale: space, and [\t \n \v \f \r]. *)
Definition isspace (c : ascii) : bool :=
  let n := nat_of_ascii c in (n =? 32)%nat || ((9 <=? n)%nat && (n <=? 13)%nat).

Fixpoint string_drop (n : nat) (s : string) : string :=
  match n, s with
  | O, _ => s
  | S n', String _ rest => string_drop n' rest
  | S _, EmptyString => EmptyString
  end.

Fixpoint all_digits (s : string) : bool :=
  match s with
  | EmptyString => true
  | String c rest => isdigit c && all_digits rest
  end.

(** Lines 103-122. [substr(0, 4)] of a shorter string is the whole string. *)
Definition is_valid_channel_id (id_str : string) : bool :=
  if string_empty id_str then false
  else if negb (String.eqb (substring 0 4 id_str) "-100") then false
  else if negb (all_digits (string_drop 4 id_str)) then false
  else (4 <? String.length id_str)%nat.

(** *** [std::stoll] *)

Definition LLONG_MIN : Z := - 2 ^ 63.
Definition LLONG_MAX : Z := 2 ^ 63 - 1.

Definition digit_value (c : ascii) : Z := Z.of_nat (nat_of_ascii c) - 48.

(** The value of the longest prefix of decimal digits, read after [acc]. *)
Fixpoint digits_value (acc : Z) (s : string) : Z :=
  match s with
  | EmptyString => acc
  | String c rest =>
      if isdigit c then digits_value (10 * acc + digit_value c) rest else acc
  end.

Definition decimal_value (s : string) : Z := digits_value 0 s.

Fixpoint skip_spaces (s : string) : string :=
  match s with
  | String c rest => if isspace c then skip_spaces rest else s
  | EmptyString => EmptyString
  end.

Definition starts_with_digit (s : string) : bool :=
  match s with String c _ => isdigit c | EmptyString => false end.

(** [std::stoll(str)], base 10: leading white space, an optional sign, the
    longest run of digits; [invalid_argument] without a digit,
    [out_of_range] when the value does not fit [long long]. *)
Definition stoll (str : string) : Outcome Z :=
  let s1 := skip_spaces str in
  let '(negative, s2) :=
    match s1 with
    | String "-"%char rest => (true, rest)
    | String "+"%char rest => (false, rest)
    | _ => (false, s1)
    end in
  if starts_with_digit s2 then
    let magnitude := decimal_value s2 in
    let value := if negative then - magnitude else magnitude in
    if (LLONG_MIN <=? value) && (value <=? LLONG_MAX)
    then Ret value
    else Throw (out_of_range "stoll")
  else Throw (invalid_argument "stoll").

(** *** Links *)

Definition username_char (c : ascii) : bool :=
  negb (Ascii.eqb c "/"%char) && negb (isspace c).

Fixpoint take_username (s : string) : string :=
  match s with
  | String c rest => if username_char c then String c (take_username rest) else EmptyString
  | EmptyString => EmptyString
  end.

Definition starts_with (p s : string) : bool :=
  String.eqb (substring 0 (String.length p) s) p.

(** Lines 89-101: the leftmost match of [t\.me/([^/\s]+)]. *)
Fixpoint extract_username_from_link_at (whole link : string) : Outcome string :=
  let no_match := Throw (ChannelError ("无法从链接提取用户名: " +:+ whole)) in
  match link with
  | EmptyString => no_match
  | String _ rest =>
      let username := take_username (string_drop 5 link) in
      if starts_with "t.me/" link && negb (string_empty username)
      then Ret username
      else extract_username_from_link_at whole rest
  end.

Definition extract_username_from_link (link : string) : Outcome string :=
  extract_username_from_link_at link link.

Fixpoint contains (needle s : string) : bool :=
  starts_with needle s ||
  match s with
  | String _ rest => contains needle rest
  | EmptyString => false
  end.

(** The result of a resolution: what the call returns or throws, the
    cache afterwards, and the user names it asked the backend for. *)
Record Resolution : Type := {
  returned : Outcome Z;
  channel_cache_ : gmap string Z;
  queried : list string;
}.

Section Resolver.

(** The backend's answer to [searchPublicChat] for a user name: the
    [id_] of the chat found, an error object, or no answer in time. *)
Variable searchPublicChat : string -> QueryResult Z.

(** Lines 124-148. *)
Definition get_chat_id_by_username (username : string) : Outcome Z :=
  match searchPublicChat username with
  | NoResponse => Throw (runtime_error "请求超时")
  | ErrorObject _ message_ => Throw (ChannelError ("获取频道ID失败: " +:+ message_))
  | Answered chat_id => Ret chat_id
  end.

(** Lines 27-81. *)
Definition resolve_channel_sync (channel_identifier : string)
    (cache : gmap string Z) : Resolution :=
  match cache !! channel_identifier with
  | Some cached => {| returned := Ret cached; channel_cache_ := cache; queried := [] |}
  | None =>
      if is_valid_channel_id channel_identifier then
        match stoll channel_identifier with
        | Ret channel_id =>
            {| returned := Ret channel_id;
               channel_cache_ := <[channel_identifier := channel_id]> cache;
               queried := [] |}
        | failure =>
            {| returned := failure; channel_cache_ := cache; queried := [] |}
        end
      else
        let username :=
          if contains "t.me/" channel_identifier
          then extract_username_from_link channel_identifier
          else match channel_identifier with
               | String "@"%char rest => Ret rest
               | _ => Ret channel_identifier
               end in
        match username with
        | Ret username =>
            match get_chat_id_by_username username with
            | Ret channel_id =>
                {| returned := Ret channel_id;
                   channel_cache_ := <[channel_identifier := channel_id]> cache;
                   queried := [username] |}
            | failure =>
                {| returned := failure; channel_cache_ := cache;
                   queried := [username] |}
            end
        | Throw e => {| returned := Throw e; channel_cache_ := cache; queried := [] |}
        | Crash => {| returned := Crash; channel_cache_ := cache; queried := [] |}
        end
  end.

Definition clear_cache (cache : gmap string Z) : gmap string Z := ∅.

End Resolver.

End ChannelResolver.

(** ** client_manager.cpp *)

(** [std::map<std::uint64_t, V>]: the entries in increasing key order, one
    per key; [begin()] is the entry with the least key. *)
Module std_map.

Fixpoint insert_or_assign {V : Type} (k : Z) (v : V) (m : list (Z * V)) : list (Z * V) :=
  match m with
  | [] => [(k, v)]
  | (k', v') :: rest =>
      if k <? k' then (k, v) :: m
      else if k =? k' then (k, v) :: rest
      else (k', v') :: insert_or_assign k v rest
  end.

Fixpoint find {V : Type} (k : Z) (m : list (Z * V)) : option V :=
  match m with
  | [] => None
  | (k', v) :: rest => if k' =? k then Some v else find k rest
  end.

Fixpoint erase {V : Type} (k : Z) (m : list (Z * V)) : list (Z * V) :=
  match m with
  | [] => []
  | (k', v) :: rest => if k' =? k then erase k rest else (k', v) :: erase k rest
  end.

Definition begin {V : Type} (m : list (Z * V)) : option (Z * V) := head m.

End std_map.

Module ClientManager.

Inductive ClientState : Type :=
| Idle | Connecting | WaitingPhoneNumber | WaitingCode | WaitingPassword
| Ready | Closed | Error.

#[global] Instance ClientState_eq_dec : EqDecision ClientState.
Proof. solve_decision. Defined.

Inductive AuthorizationState : Type :=
| authorizationStateWaitTdlibParameters
| authorizationStateWaitEncryptionKey
| authorizationStateWaitPhoneNumber
| authorizationStateWaitCode
| authorizationStateWaitPassword
| authorizationStateReady
| authorizationStateLoggingOut
| authorizationStateClosing
| authorizationStateClosed
| authorizationStateOther (n : Z).

(** Constructor identifiers of the objects of the inbound stream. *)
Inductive ObjectId : Type :=
| updateAuthorizationState_ID | error_ID | ok_ID | updateNewMessage_ID
| other_ID (n : Z).

#[global] Instance ObjectId_eq_dec : EqDecision ObjectId.
Proof. solve_decision. Defined.

Inductive Object : Type :=
| updateAuthorizationState (authorization_state_ : option AuthorizationState)
| error (code_ : Z) (message_ : string)
| ok
| updateNewMessage (message_ : Message)
| otherObject (n : Z) (description : string).

Definition get_id (o : Object) : ObjectId :=
  match o with
  | updateAuthorizationState _ => updateAuthorizationState_ID
  | error _ _ => error_ID
  | ok => ok_ID
  | updateNewMessage _ => updateNewMessage_ID
  | otherObject n _ => other_ID n
  end.

(** Requests ([td_api::Function]); the ones the manager builds itself are
    named, any other is carried by its name. *)
Inductive Function : Type :=
| checkAuthenticationCode (code_ : string)
| checkAuthenticationPassword (password_ : string)
| setAuthenticationPhoneNumber (phone_number_ : string)
| checkDatabaseEncryptionKey
| function (name : string).

(** Completion handlers ([std::function<void(Object)>]). The one
    [send_query] installs fulfils the promise the caller waits on. *)
Inductive ResponseHandler : Type :=
| set_promise (promise : nat)
| callback (name : string).

#[global] Instance ResponseHandler_eq_dec : EqDecision ResponseHandler.
Proof. solve_decision. Defined.

Inductive UpdateHandler : Type :=
| update_callback (name : string).

(** What one item of the stream makes the manager do to the outside. *)
Inductive Effect : Type :=
| Sent (request_id : Z) (query : Function)
| ResponseHandlerCalled (query_id : Z) (handler : ResponseHandler) (object : Object)
| UpdateHandlerCalled (handler : UpdateHandler) (object : Object)
| StateNotified (state : ClientState).

Record t : Type := {
  client_id_ : option Z;
  state_ : ClientState;
  running_ : bool;
  response_handlers_ : list (Z * ResponseHandler);
  update_handlers_ : gmap string UpdateHandler;
  query_id_ : Z;
}.

Definition with_state (cm : t) (s : ClientState) : t :=
  {| client_id_ := client_id_ cm; state_ := s; running_ := running_ cm;
     response_handlers_ := response_handlers_ cm;
     update_handlers_ := update_handlers_ cm; query_id_ := query_id_ cm |}.

Definition with_response_handlers (cm : t) (h : list (Z * ResponseHandler)) : t :=
  {| client_id_ := client_id_ cm; state_ := state_ cm; running_ := running_ cm;
     response_handlers_ := h;
     update_handlers_ := update_handlers_ cm; query_id_ := query_id_ cm |}.

Definition with_query_id (cm : t) (q : Z) : t :=
  {| client_id_ := client_id_ cm; state_ := state_ cm; running_ := running_ cm;
     response_handlers_ := response_handlers_ cm;
     update_handlers_ := update_handlers_ cm; query_id_ := q |}.

(** [td::ClientManager::Response]. *)
Record Response : Type := {
  client_id : Z;
  request_id : Z;
  object : option Object;
}.

(** Lines 120-136. *)
Definition set_state (state : ClientState) (cm : t) : t * list Effect :=
  let old_state := state_ cm in
  let cm' := with_state cm state in
  if decide (old_state = state) then (cm', [])
  else
    match state with
    | Ready | Error | Closed => (cm', [StateNotified state])
    | _ => (cm', [])
    end.

Definition UINT64_MODULUS : Z := 2 ^ 64.

(** Lines 192-210; [handler] is [None] for the default [nullptr]. *)
Definition send_query_async (query : Function) (handler : option ResponseHandler)
    (cm : t) : Outcome Z * t * list Effect :=
  match client_id_ cm with
  | None => (Throw (runtime_error "客户端未初始化"), cm, [])
  | Some _ =>
      let query_id := (query_id_ cm + 1) mod UINT64_MODULUS in
      let cm1 := with_query_id cm query_id in
      let cm2 :=
        match handler with
        | Some h =>
            with_response_handlers cm1
              (std_map.insert_or_assign query_id h (response_handlers_ cm1))
        | None => cm1
        end in
      (Ret query_id, cm2, [Sent query_id query])
  end.

(** How a call of the dispatch thread ends: it returns, an exception leaves
    it, or it dereferences a null pointer. *)
Inductive Completion : Type :=
| Normal
| Thrown (e : exception)
| Crashed.

Section Dispatch.

(** [Config::instance().phone_number()]. *)
Variable phone_number : string.
(** The token [std::cin >> ...] yields when the manager asks for the code or
    the password. *)
Variable console_input : string.
(** The value line 311 compares identifiers with,
    [static_cast<std::int32_t>(td::td_api::MessageContentType::Proxy)]. *)
Variable MessageContentType_Proxy : ObjectId.

(** Lines 138-150. *)
Definition send_code (code : string) (cm : t) : t * list Effect * Completion :=
  if decide (state_ cm = WaitingCode) then
    match send_query_async (checkAuthenticationCode code) None cm with
    | (Ret _, cm', sent) => (cm', sent, Normal)
    | (Throw e, cm', sent) => (cm', sent, Thrown e)
    | (Crash, cm', sent) => (cm', sent, Crashed)
    end
  else (cm, [], Normal).

(** Lines 152-164. *)
Definition send_password (password : string) (cm : t) : t * list Effect * Completion :=
  if decide (state_ cm = WaitingPassword) then
    match send_query_async (checkAuthenticationPassword password) None cm with
    | (Ret _, cm', sent) => (cm', sent, Normal)
    | (Throw e, cm', sent) => (cm', sent, Thrown e)
    | (Crash, cm', sent) => (cm', sent, Crashed)
    end
  else (cm, [], Normal).

(** [td::ClientManager::send] on the client [client_id_] points to, with a
    literal request id. *)
Definition send_raw (id : Z) (query : Function) (cm : t) : t * list Effect * Completion :=
  match client_id_ cm with
  | Some _ => (cm, [Sent id query], Normal)
  | None => (cm, [], Crashed)
  end.

(** Lines 350-444. *)
Definition handle_authorization_state (object : option AuthorizationState) (cm : t)
  : t * list Effect * Completion :=
  match object with
  | None => (cm, [], Normal)
  | Some auth_state =>
      match auth_state with
      | authorizationStateWaitTdlibParameters =>
          let '(cm1, e1) := set_state Connecting cm in (cm1, e1, Normal)
      | authorizationStateWaitEncryptionKey =>
          send_raw 3 checkDatabaseEncryptionKey cm
      | authorizationStateWaitPhoneNumber =>
          let '(cm1, e1) := set_state WaitingPhoneNumber cm in
          if negb (string_empty phone_number) then
            let '(cm2, e2, c) := send_raw 4 (setAuthenticationPhoneNumber phone_number) cm1 in
            (cm2, e1 ++ e2, c)
          else
            let '(cm2, e2) := set_state Error cm1 in (cm2, e1 ++ e2, Normal)
      | authorizationStateWaitCode =>
          let '(cm1, e1) := set_state WaitingCode cm in
          let '(cm2, e2, c) := send_code console_input cm1 in
          (cm2, e1 ++ e2, c)
      | authorizationStateWaitPassword =>
          let '(cm1, e1) := set_state WaitingPassword cm in
          let '(cm2, e2, c) := send_password console_input cm1 in
          (cm2, e1 ++ e2, c)
      | authorizationStateReady =>
          let '(cm1, e1) := set_state Ready cm in (cm1, e1, Normal)
      | authorizationStateLoggingOut =>
          let '(cm1, e1) := set_state Idle cm in (cm1, e1, Normal)
      | authorizationStateClosing =>
          let '(cm1, e1) := set_state Idle cm in (cm1, e1, Normal)
      | authorizationStateClosed =>
          let '(cm1, e1) := set_state Closed cm in (cm1, e1, Normal)
      | authorizationStateOther _ => (cm, [], Normal)
      end
  end.

(** Lines 311-316. [td::move_object_as] releases the pointer it is given,
    so after either branch the local [object] is null. *)
Definition after_callback_check (o : Object) : option Object :=
  if decide (get_id o = MessageContentType_Proxy) then None
  else if decide (get_id o = error_ID) then None
  else Some o.

(** Lines 319-326: the update handler is called with [std::move(object)],
    which leaves [object] null; reading [object->get_id()] from a null
    pointer is the outcome [None]. *)
Definition deliver_update (object : option Object) (cm : t)
  : option (option Object * list Effect) :=
  match object with
  | None => None
  | Some o =>
      if decide (get_id o = updateNewMessage_ID) then
        match update_handlers_ cm !! "updateNewMessage" with
        | Some handler => Some (None, [UpdateHandlerCalled handler o])
        | None => Some (Some o, [])
        end
      else Some (Some o, [])
  end.

(** Lines 329-347: the response is given to the handler [begin()] points
    at, the pending entry with the least query id. *)
Definition deliver_response (object : option Object) (cm : t)
  : t * list Effect * Completion :=
  match object with
  | None => (cm, [], Crashed)
  | Some o =>
      if bool_decide (get_id o = ok_ID) || bool_decide (get_id o = error_ID) then
        match std_map.begin (response_handlers_ cm) with
        | None => (cm, [], Normal)
        | Some (query_id, handler) =>
            (with_response_handlers cm (tail (response_handlers_ cm)),
             [ResponseHandlerCalled query_id handler o], Normal)
        end
      else (cm, [], Normal)
  end.

(** Lines 294-348. *)
Definition process_response (object : option Object) (cm : t)
  : t * list Effect * Completion :=
  match object with
  | None => (cm, [], Normal)
  | Some o =>
      match o with
      | updateAuthorizationState authorization_state_ =>
          handle_authorization_state authorization_state_ cm
      | _ =>
          match deliver_update (after_callback_check o) cm with
          | None => (cm, [], Crashed)
          | Some (object', e1) =>
              let '(cm', e2, c) := deliver_response object' cm in
              (cm', e1 ++ e2, c)
          end
      end
  end.

(** One turn of the loop of lines 278-289 on a received [response]; the
    request id the response carries is not passed on. *)
Definition process_updates_step (response : Response) (cm : t)
  : t * list Effect * Completion :=
  match object response with
  | None => (cm, [], Normal)
  | Some o =>
      match client_id_ cm with
      | None => (cm, [], Normal)
      | Some id =>
          if decide (client_id response = id)
          then process_response (Some o) cm
          else (cm, [], Normal)
      end
  end.

(** The loop on the responses received in turn, while [running_] holds and
    nothing stops the thread. *)
Fixpoint process_updates (responses : list Response) (cm : t)
  : t * list Effect * Completion :=
  match responses with
  | [] => (cm, [], Normal)
  | response :: rest =>
      if running_ cm then
        match process_updates_step response cm with
        | (cm1, e1, Normal) =>
            let '(cm2, e2, c) := process_updates rest cm1 in (cm2, e1 ++ e2, c)
        | stopped => stopped
        end
      else (cm, [], Normal)
  end.

(** The value the promise [promise] was given, if a handler set it. *)
Fixpoint promise_value (promise : nat) (effects : list Effect) : option Object :=
  match effects with
  | [] => None
  | ResponseHandlerCalled _ (set_promise p) o :: rest =>
      if decide (p = promise) then Some o else promise_value promise rest
  | _ :: rest => promise_value promise rest
  end.

(** Lines 166-190. The caller waits on [promise] while the dispatch thread
    handles [inbound], the responses received before the caller wakes up:
    when its promise was set or, if it was not, when [timeout] has elapsed. *)
Definition send_query (query : Function) (promise : nat) (inbound : list Response)
    (cm : t) : Outcome Object * t * list Effect :=
  match client_id_ cm with
  | None => (Throw (runtime_error "客户端未初始化"), cm, [])
  | Some _ =>
      match send_query_async query (Some (set_promise promise)) cm with
      | (Ret query_id, cm1, sent) =>
          match process_updates inbound cm1 with
          | (cm2, effects, Normal) =>
              match promise_value promise effects with
              | Some response => (Ret response, cm2, sent ++ effects)
              | None =>
                  (Throw (runtime_error "请求超时"),
                   with_response_handlers cm2
                     (std_map.erase query_id (response_handlers_ cm2)),
                   sent ++ effects)
              end
          | (cm2, effects, _) => (Crash, cm2, sent ++ effects)
          end
      | (Throw e, cm1, sent) => (Throw e, cm1, sent)
      | (Crash, cm1, sent) => (Crash, cm1, sent)
      end
  end.

End Dispatch.

(** *** The rest of the manager's interface *)

Definition with_update_handlers (cm : t) (h : gmap string UpdateHandler) : t :=
  {| client_id_ := client_id_ cm; state_ := state_ cm; running_ := running_ cm;
     response_handlers_ := response_handlers_ cm;
     update_handlers_ := h; query_id_ := query_id_ cm |}.

(** The constructor, lines 20-24, with the initial [query_id_{0}] of the
    class declaration. *)
Definition new : t :=
  {| client_id_ := None; state_ := Idle; running_ := false;
     response_handlers_ := []; update_handlers_ := ∅; query_id_ := 0 |}.

(** Lines 33-43; [created] is the id [td::ClientManager::create()] returns. *)
Definition init (created : Z) (cm : t) : t :=
  {| client_id_ := Some created; state_ := state_ cm; running_ := running_ cm;
     response_handlers_ := response_handlers_ cm;
     update_handlers_ := update_handlers_ cm; query_id_ := query_id_ cm |}.

(** Lines 212-221; [handler] is [None] for an empty [std::function]. *)
Definition register_update_handler (type : string) (handler : option UpdateHandler)
    (cm : t) : t :=
  match handler with
  | None => cm
  | Some h => with_update_handlers cm (<[type := h]> (update_handlers_ cm))
  end.

(** Lines 223-228. *)
Definition unregister_update_handler (type : string) (cm : t) : t :=
  with_update_handlers cm (delete type (update_handlers_ cm)).

(** Lines 230-235. *)
Definition clear_update_handlers (cm : t) : t := with_update_handlers cm ∅.

(** Lines 79-114. The update thread leaves its loop once [running_] is
    false; the client is destroyed and its id reset, and both handler maps
    are cleared without calling anything. *)
Definition stop (cm : t) : t * list Effect :=
  if negb (running_ cm) then (cm, [])
  else
    set_state Closed
      {| client_id_ := None; state_ := state_ cm; running_ := false;
         response_handlers_ := []; update_handlers_ := ∅;
         query_id_ := query_id_ cm |}.

End ClientManager.

(** ** media_handler.cpp *)

(** [std::to_string(chat_id) + "_" + std::to_string(message_id)]. *)
Definition generate_message_id (chat_id message_id : Z) : string :=
  pretty chat_id +:+ "_" +:+ pretty message_id.

Inductive MediaTaskState : Type :=
| Pending | Processing | Completed | Failed | Cancelled.

#[global] Instance MediaTaskState_eq_dec : EqDecision MediaTaskState.
Proof. solve_decision. Defined.

Inductive MediaTaskType : Type := Download | Upload.

Record MemoryBuffer : Type := {
  binary_data_ : string;
  name_ : string;
}.

Definition append (data : string) (b : MemoryBuffer) : MemoryBuffer :=
  {| binary_data_ := binary_data_ b +:+ data; name_ := name_ b |}.

Definition set_name (name : string) (b : MemoryBuffer) : MemoryBuffer :=
  {| binary_data_ := binary_data_ b; name_ := name |}.

(** What [e.what()] returns. *)
Definition what (e : exception) : string :=
  match e with
  | runtime_error w | ChannelError w | MediaError w
  | out_of_range w | invalid_argument w | future_error w => w
  end.

(** [MediaTask]. The two time stamps are left out: they are read from the
    system clock and no control flow depends on them. *)
Module MediaTask.

Record t : Type := {
  id_ : string;
  type_ : MediaTaskType;
  state_ : MediaTaskState;
  message_ : message;
  buffer_ : MemoryBuffer;
  error_ : string;
  progress_ : Z;
}.

(** The constructor, lines 10-22. *)
Definition new (type : MediaTaskType) (m : message) : t :=
  {| id_ := generate_message_id (td_api.chat_id_ m) (td_api.id_ m);
     type_ := type;
     state_ := Pending;
     message_ := m;
     buffer_ := {| binary_data_ := ""; name_ := "" |};
     error_ := "";
     progress_ := 0 |}.

Definition set_state (state : MediaTaskState) (task : t) : t :=
  {| id_ := id_ task; type_ := type_ task; state_ := state;
     message_ := message_ task; buffer_ := buffer_ task;
     error_ := error_ task; progress_ := progress_ task |}.

Definition set_error (error : string) (task : t) : t :=
  {| id_ := id_ task; type_ := type_ task; state_ := state_ task;
     message_ := message_ task; buffer_ := buffer_ task;
     error_ := error; progress_ := progress_ task |}.

Definition set_buffer (buffer : MemoryBuffer) (task : t) : t :=
  {| id_ := id_ task; type_ := type_ task; state_ := state_ task;
     message_ := message_ task; buffer_ := buffer;
     error_ := error_ task; progress_ := progress_ task |}.

(** [std::clamp(progress, 0, 100)]. *)
Definition set_progress (progress : Z) (task : t) : t :=
  {| id_ := id_ task; type_ := type_ task; state_ := state_ task;
     message_ := message_ task; buffer_ := buffer_ task;
     error_ := error_ task; progress_ := Z.min (Z.max progress 0) 100 |}.

End MediaTask.

Module MediaGroupTask.

Record t : Type := {
  id_ : string;
  tasks_ : list MediaTask.t;
}.

Definition new (group_id : string) : t := {| id_ := group_id; tasks_ := [] |}.

Definition add_task (task : MediaTask.t) (g : t) : t :=
  {| id_ := id_ g; tasks_ := tasks_ g ++ [task] |}.

Definition count_state (state : MediaTaskState) (g : t) : nat :=
  length (filter (λ task, MediaTask.state_ task = state) (tasks_ g)).

Definition completed_count (g : t) : nat := count_state Completed g.
Definition failed_count (g : t) : nat := count_state Failed g.

Definition is_completed (g : t) : bool :=
  bool_decide ((completed_count g + failed_count g)%nat = length (tasks_ g)).

Definition INT_MIN : Z := - 2 ^ 31.
Definition INT_MAX : Z := 2 ^ 31 - 1.

(** The loop of lines 132-135. [total_progress] is an [int]: a sum that
    leaves its range is undefined behaviour. *)
Fixpoint total_progress (total : Z) (tasks : list MediaTask.t) : Outcome Z :=
  match tasks with
  | [] => Ret total
  | task :: rest =>
      let total' := total + MediaTask.progress_ task in
      if (INT_MIN <=? total') && (total' <=? INT_MAX)
      then total_progress total' rest
      else Crash
  end.

(** Lines 127-138; the division of two [int]s truncates towards zero. *)
Definition overall_progress (g : t) : Outcome Z :=
  match tasks_ g with
  | [] => Ret 0
  | _ =>
      match total_progress 0 (tasks_ g) with
      | Ret total => Ret (total ÷ Z.of_nat (length (tasks_ g)))
      | failure => failure
      end
  end.

End MediaGroupTask.

Module MediaHandler.

(** What [download_file] does to the task it is given: it fills the buffer
    and returns, or it throws. It is decided by the backend and the file
    system, so it is an input here. *)
Inductive DownloadResult : Type :=
| downloaded (content file_name : string)
| download_throws (e : exception).

(** The download side of the handler. A promise is named by a number; the
    future made from it reads [promises_]. [downloading_] holds, per worker
    thread, the pair it has taken off the queue and is working on. *)
Record t : Type := {
  running_ : bool;
  max_concurrent_downloads_ : nat;
  download_queue_ : list (MediaTask.t * nat);
  downloading_ : gmap nat (MediaTask.t * nat);
  active_downloads_ : Z;
  promises_ : gmap nat MediaTask.t;
  next_promise_ : nat;
}.

Definition with_queue (h : t) (q : list (MediaTask.t * nat)) (next : nat) : t :=
  {| running_ := running_ h;
     max_concurrent_downloads_ := max_concurrent_downloads_ h;
     download_queue_ := q; downloading_ := downloading_ h;
     active_downloads_ := active_downloads_ h;
     promises_ := promises_ h; next_promise_ := next |}.

(** Lines 227-241: returns the future, named by its promise. *)
Definition download_media (m : message) (h : t) : nat * t :=
  let promise := next_promise_ h in
  let task := MediaTask.new Download m in
  (promise, with_queue h (download_queue_ h ++ [(task, promise)]) (S promise)).

(** The thread [download_media_group] detaches: the futures it still has to
    wait for, in order, and the group task it fills; [group_promise_] is
    what it has set the promise of the group to. *)
Record Joiner : Type := {
  futures_ : list nat;
  group_task_ : MediaGroupTask.t;
  group_promise_ : option MediaGroupTask.t;
}.

(** The future [download_media_group] returns: already set to [nullptr], or
    to be set by the thread it detached. *)
Inductive GroupFuture : Type :=
| ready_nullptr
| set_by (joiner : Joiner).

(** The loop of lines 267-269. *)
Fixpoint download_each (messages : list message) (h : t) : list nat * t :=
  match messages with
  | [] => ([], h)
  | m :: rest =>
      let '(future, h1) := download_media m h in
      let '(futures, h2) := download_each rest h1 in
      (future :: futures, h2)
  end.

(** A null pointer in the vector is dereferenced by the constructor of
    [MediaTask]. *)
Fixpoint non_null (messages : MessageVector) : option (list message) :=
  match messages with
  | [] => Some []
  | Some m :: rest => cons m <$> non_null rest
  | None :: _ => None
  end.

(** Lines 243-288. *)
Definition download_media_group (messages : MessageVector) (h : t)
  : Outcome (GroupFuture * t) :=
  match messages with
  | [] => Ret (ready_nullptr, h)
  | first :: _ =>
      match get_media_group_id first with
      | None => Ret (ready_nullptr, h)
      | Some media_group_id =>
          match non_null messages with
          | None => Crash
          | Some ms =>
              let '(futures, h') := download_each ms h in
              Ret (set_by {| futures_ := futures;
                             group_task_ := MediaGroupTask.new media_group_id;
                             group_promise_ := None |}, h')
          end
      end
  end.

Section Workers.

Variable download_file : MediaTask.t -> DownloadResult.

(** Lines 469-489, from the task set to [Processing] to the value the
    promise is given. *)
Definition finish (task : MediaTask.t) : MediaTask.t :=
  match download_file task with
  | downloaded content file_name =>
      MediaTask.set_state Completed
        (MediaTask.set_buffer
           (set_name file_name (append content (MediaTask.buffer_ task))) task)
  | download_throws e =>
      MediaTask.set_error (what e) (MediaTask.set_state Failed task)
  end.

(** What the threads of the handler can do next. *)
Inductive Action : Type :=
| worker_takes (w : nat)
| worker_finishes (w : nat)
| joiner_joins.

(** Lines 450-471: worker [w] takes the front of the queue. Line 468 guards
    the work by [task && promise.get_future().valid()]. It is read here as
    the test it is written to be, that the pair taken off the queue is a
    task with a usable promise, which holds for every pair [download_media]
    queues. (Taken by the letter of the standard library the call would
    throw instead: [download_media] has already taken the future of that
    promise.) *)
Definition take_from_queue (w : nat) (h : t) : t :=
  if running_ h && bool_decide (w < max_concurrent_downloads_ h)%nat then
    match downloading_ h !! w, download_queue_ h with
    | None, (task, promise) :: rest =>
        {| running_ := running_ h;
           max_concurrent_downloads_ := max_concurrent_downloads_ h;
           download_queue_ := rest;
           downloading_ :=
             <[w := (MediaTask.set_state Processing task, promise)]> (downloading_ h);
           active_downloads_ := active_downloads_ h + 1;
           promises_ := promises_ h; next_promise_ := next_promise_ h |}
    | _, _ => h
    end
  else h.

(** Lines 473-491: worker [w] ends the download it is working on. *)
Definition finish_download (w : nat) (h : t) : t :=
  match downloading_ h !! w with
  | Some (task, promise) =>
      {| running_ := running_ h;
         max_concurrent_downloads_ := max_concurrent_downloads_ h;
         download_queue_ := download_queue_ h;
         downloading_ := delete w (downloading_ h);
         active_downloads_ := active_downloads_ h - 1;
         promises_ := <[promise := finish task]> (promises_ h);
         next_promise_ := next_promise_ h |}
  | None => h
  end.

(** Lines 272-285: the detached thread gets the next future if its value is
    there, and sets the promise of the group once no future is left. *)
Definition join (h : t) (j : Joiner) : Joiner :=
  match group_promise_ j with
  | Some _ => j
  | None =>
      match futures_ j with
      | future :: rest =>
          match promises_ h !! future with
          | Some task =>
              {| futures_ := rest;
                 group_task_ := MediaGroupTask.add_task task (group_task_ j);
                 group_promise_ := None |}
          | None => j
          end
      | [] =>
          {| futures_ := []; group_task_ := group_task_ j;
             group_promise_ := Some (group_task_ j) |}
      end
  end.

Definition step (a : Action) (s : t * Joiner) : t * Joiner :=
  match a with
  | worker_takes w => (take_from_queue w (fst s), snd s)
  | worker_finishes w => (finish_download w (fst s), snd s)
  | joiner_joins => (fst s, join (fst s) (snd s))
  end.

(** The handler and the detached thread after the actions of [schedule],
    an interleaving of the threads; an action that cannot be taken is
    skipped. *)
Definition run (schedule : list Action) (s : t * Joiner) : t * Joiner :=
  fold_left (λ s a, step a s) schedule s.

(** The task the future of [download_media(m)] yields: the new task, set to
    [Processing] by the worker that took it and ended by [finish]. *)
Definition settled (m : message) : MediaTask.t :=
  finish (MediaTask.set_state Processing (MediaTask.new Download m)).

(** The group task a caller of [download_media_group(messages).get()]
    receives, whatever the interleaving of the threads
    ([MediaFacts.run_resolves_to_downloaded_group]). *)
Definition downloaded_group (media_group_id : string) (messages : list message)
  : MediaGroupTask.t :=
  {| MediaGroupTask.id_ := media_group_id;
     MediaGroupTask.tasks_ := settled <$> messages |}.

(** [download_media_group(messages).get()] as its caller sees it: [None] is
    the null group task. *)
Definition download_media_group_get (messages : list message)
  : option MediaGroupTask.t :=
  match messages with
  | [] => None
  | first :: _ =>
      match get_media_group_id (Some first) with
      | None => None
      | Some media_group_id => Some (downloaded_group media_group_id messages)
      end
  end.

End Workers.

(** *** Uploads

    The requests of the upload side, and what a caller of [.get()] on the
    future receives. The answer of the backend to the one request an upload
    sends is an input. *)

Inductive InputMessageContent : Type :=
| inputMessageText (text : string)
| inputMessageMedia (kind : MediaType) (file : MemoryBuffer) (caption : option string).

(** The requests the forwarder and the handler send to the backend. *)
Inductive Request : Type :=
| getChatHistory (chat_id_ limit_ offset_ : Z)
| sendMessage (chat_id_ : Z) (input_message_content_ : InputMessageContent)
| sendMessageAlbum (chat_id_ : Z) (input_message_contents_ : list InputMessageContent).

Definition caption_of (caption : string) : option string :=
  if string_empty caption then None else Some caption.

(** Lines 626-727; the requests sent are returned with the outcome. *)
Definition send_media_by_type (chat_id : Z) (task : MediaTask.t)
    (answer : QueryResult message) : Outcome message * list Request :=
  let m := Some (MediaTask.message_ task) in
  let media_type := get_media_type m in
  let caption := get_caption m in
  let content :=
    match media_type with
    | Photo | Video | Document | Audio | Animation =>
        Some (inputMessageMedia media_type (MediaTask.buffer_ task) (caption_of caption))
    | Sticker => Some (inputMessageMedia Sticker (MediaTask.buffer_ task) None)
    | _ => None
    end in
  match content with
  | None => (Throw (MediaError "不支持的媒体类型"), [])
  | Some content =>
      let sent := [sendMessage chat_id content] in
      match answer with
      | NoResponse => (Throw (runtime_error "请求超时"), sent)
      | ErrorObject _ message_ =>
          (Throw (MediaError ("发送媒体消息失败: " +:+ message_)), sent)
      | Answered new_message => (Ret new_message, sent)
      end
  end.

(** [upload_media(chat_id, task).get()]: the upload worker (lines 498-552)
    passes on what [upload_file] returns or throws. *)
Definition upload_media_get (chat_id : Z) (task : MediaTask.t)
    (answer : QueryResult message) : Outcome message * list Request :=
  send_media_by_type chat_id task answer.

(** The loop of lines 322-376: one content per photo, video or document
    task, the caption on the content made for the first task only. *)
Fixpoint album_contents (caption : string) (i : nat) (tasks : list MediaTask.t)
  : list InputMessageContent :=
  match tasks with
  | [] => []
  | task :: rest =>
      let media_type := get_media_type (Some (MediaTask.message_ task)) in
      let with_caption :=
        if bool_decide (i = 0%nat) && negb (string_empty caption)
        then Some caption else None in
      match media_type with
      | Photo | Video | Document =>
          inputMessageMedia media_type (MediaTask.buffer_ task) with_caption
            :: album_contents caption (S i) rest
      | _ => album_contents caption (S i) rest
      end
  end.

(** [MediaGroupTask::caption], lines 140-150. *)
Fixpoint group_caption (tasks : list MediaTask.t) : string :=
  match tasks with
  | [] => ""
  | task :: rest =>
      let caption := get_caption (Some (MediaTask.message_ task)) in
      if negb (string_empty caption) then caption else group_caption rest
  end.

(** [upload_media_group(chat_id, group_task).get()], lines 304-414. *)
Definition upload_media_group_get (chat_id : Z) (group_task : MediaGroupTask.t)
    (answer : QueryResult MessageVector) : Outcome MessageVector * list Request :=
  let tasks := MediaGroupTask.tasks_ group_task in
  match tasks with
  | [] => (Ret [], [])
  | _ =>
      let caption := group_caption tasks in
      let sent := [sendMessageAlbum chat_id (album_contents caption 0 tasks)] in
      match answer with
      | NoResponse => (Throw (runtime_error "请求超时"), sent)
      | ErrorObject _ message_ =>
          (Throw (runtime_error ("发送媒体组失败: " +:+ message_)), sent)
      | Answered messages => (Ret messages, sent)
      end
  end.

End MediaHandler.

(** ** restricted_channel_forwarder.cpp *)

Module RestrictedChannelForwarder.

(** Modelled from the spec: the declaration of [ForwarderMode] is in a header
    that is not among the sources; its values are the two that [init] and
    [forward_worker] name, the spec's [mode] in {continuous, one_time}. *)
Inductive ForwarderMode : Type := Continuous | OneTime.

#[global] Instance ForwarderMode_eq_dec : EqDecision ForwarderMode.
Proof. solve_decision. Defined.

(** Modelled from the spec: the declaration of [MessageTypeFilter] is in the
    same missing header; its values are the ones [init] and
    [should_forward_message] name, the spec's [messageTypeFilters]. *)
Inductive MessageTypeFilter : Type :=
| FilterUnknown | FilterText | FilterPhoto | FilterVideo | FilterDocument
| FilterAudio | FilterSticker | FilterAnimation | FilterAll.

#[global] Instance MessageTypeFilter_eq_dec : EqDecision MessageTypeFilter.
Proof. solve_decision. Defined.

(** Modelled from the spec: the declaration of [ForwarderConfig] is in the
    same missing header; these are the members [init], [start] and
    [forward_worker] read, the spec's recognised options. *)
Record ForwarderConfig : Type := {
  mode : ForwarderMode;
  wait_time_ms : Z;
  max_history_messages : Z;
  max_concurrent_downloads : Z;
  max_concurrent_uploads : Z;
  message_filters : list string;
}.

Record t : Type := {
  config_ : ForwarderConfig;
  running_ : bool;
  wait_time_ms_ : Z;
  source_chat_id_ : Z;
  target_chat_id_ : Z;
  last_message_id_ : Z;
  forwarded_count_ : Z;
  failed_count_ : Z;
  message_filters_ : list MessageTypeFilter;
  processed_media_groups_ : gset string;
}.

Definition with_last_message_id (st : t) (id : Z) : t :=
  {| config_ := config_ st; running_ := running_ st;
     wait_time_ms_ := wait_time_ms_ st;
     source_chat_id_ := source_chat_id_ st; target_chat_id_ := target_chat_id_ st;
     last_message_id_ := id;
     forwarded_count_ := forwarded_count_ st; failed_count_ := failed_count_ st;
     message_filters_ := message_filters_ st;
     processed_media_groups_ := processed_media_groups_ st |}.

Definition with_forwarded_count (st : t) (n : Z) : t :=
  {| config_ := config_ st; running_ := running_ st;
     wait_time_ms_ := wait_time_ms_ st;
     source_chat_id_ := source_chat_id_ st; target_chat_id_ := target_chat_id_ st;
     last_message_id_ := last_message_id_ st;
     forwarded_count_ := n; failed_count_ := failed_count_ st;
     message_filters_ := message_filters_ st;
     processed_media_groups_ := processed_media_groups_ st |}.

Definition with_failed_count (st : t) (n : Z) : t :=
  {| config_ := config_ st; running_ := running_ st;
     wait_time_ms_ := wait_time_ms_ st;
     source_chat_id_ := source_chat_id_ st; target_chat_id_ := target_chat_id_ st;
     last_message_id_ := last_message_id_ st;
     forwarded_count_ := forwarded_count_ st; failed_count_ := n;
     message_filters_ := message_filters_ st;
     processed_media_groups_ := processed_media_groups_ st |}.

Definition with_processed_media_groups (st : t) (groups : gset string) : t :=
  {| config_ := config_ st; running_ := running_ st;
     wait_time_ms_ := wait_time_ms_ st;
     source_chat_id_ := source_chat_id_ st; target_chat_id_ := target_chat_id_ st;
     last_message_id_ := last_message_id_ st;
     forwarded_count_ := forwarded_count_ st; failed_count_ := failed_count_ st;
     message_filters_ := message_filters_ st;
     processed_media_groups_ := groups |}.

(** The loop of lines 70-96 and the default of lines 99-102. *)
Definition parse_filter (filter : string) : option MessageTypeFilter :=
  if String.eqb filter "text" then Some FilterText
  else if String.eqb filter "photo" then Some FilterPhoto
  else if String.eqb filter "video" then Some FilterVideo
  else if String.eqb filter "document" then Some FilterDocument
  else if String.eqb filter "audio" then Some FilterAudio
  else if String.eqb filter "sticker" then Some FilterSticker
  else if String.eqb filter "animation" then Some FilterAnimation
  else if String.eqb filter "all" then Some FilterAll
  else None.

Definition init_filters (filters : list string) : list MessageTypeFilter :=
  let parsed := omap parse_filter filters in
  match parsed with
  | [] => [FilterAll]
  | _ => parsed
  end.

(** Lines 36-103. *)
Definition init (config : ForwarderConfig) (st : t) : t :=
  {| config_ := config; running_ := running_ st;
     wait_time_ms_ := wait_time_ms config;
     source_chat_id_ := source_chat_id_ st; target_chat_id_ := target_chat_id_ st;
     last_message_id_ := last_message_id_ st;
     forwarded_count_ := 0; failed_count_ := 0;
     message_filters_ := init_filters (message_filters config);
     processed_media_groups_ := processed_media_groups_ st |}.

(** What the forwarder thread does to the outside. *)
Inductive Event : Type :=
| query (request : MediaHandler.Request)
| download (m : message)
| sleep_for (milliseconds : Z)
| media_handler_start
| media_handler_stop.

(** What the backend does while one message of a batch is handled: its
    answer to the history request of [get_media_group_messages], what each
    download does, and its answers to the one message or album sent. *)
Record Backend : Type := {
  group_history : QueryResult MessageVector;
  download_file : MediaTask.t -> MediaHandler.DownloadResult;
  message_sent : QueryResult message;
  album_sent : QueryResult MessageVector;
}.

Definition by_id (a b : message) : Prop := id_ a ≤ id_ b.

#[global] Instance by_id_dec : RelDecision by_id.
Proof. intros a b. unfold by_id. apply _. Defined.

(** [std::sort] with the comparison [a->id_ < b->id_]. *)
Definition sort_by_id (messages : list message) : list message :=
  merge_sort by_id messages.

(** The loop of lines 320-324; [message->id_] on a null pointer is [None]. *)
Fixpoint newer_than (last_message_id : Z) (messages : MessageVector)
  : option (list message) :=
  match messages with
  | [] => Some []
  | None :: _ => None
  | Some m :: rest =>
      rest' ← newer_than last_message_id rest;
      Some (if last_message_id <? id_ m then m :: rest' else rest')
  end.

(** Lines 302-332. *)
Definition get_new_messages (last_message_id : Z)
    (answer : QueryResult MessageVector) : Outcome (list message) :=
  match answer with
  | NoResponse => Throw (runtime_error "请求超时")
  | ErrorObject _ message_ =>
      Throw (runtime_error ("获取聊天历史记录失败: " +:+ message_))
  | Answered messages =>
      match newer_than last_message_id messages with
      | None => Crash
      | Some result => Ret (sort_by_id result)
      end
  end.

(** The loop of lines 377-382. *)
Fixpoint of_group (media_group_id : string) (messages : MessageVector) : list message :=
  match messages with
  | [] => []
  | None :: rest => of_group media_group_id rest
  | Some m :: rest =>
      if decide (get_media_group_id (Some m) = Some media_group_id)
      then m :: of_group media_group_id rest
      else of_group media_group_id rest
  end.

(** Lines 358-390. *)
Definition get_media_group_messages (media_group_id : string)
    (answer : QueryResult MessageVector) : Outcome (list message) :=
  match answer with
  | NoResponse => Throw (runtime_error "请求超时")
  | ErrorObject _ message_ =>
      Throw (runtime_error ("获取媒体组消息失败: " +:+ message_))
  | Answered messages => Ret (sort_by_id (of_group media_group_id messages))
  end.

Definition filter_matches (filter : MessageTypeFilter) (content_type : ContentId) : bool :=
  match filter, content_type with
  | FilterText, messageText
  | FilterPhoto, messagePhoto
  | FilterVideo, messageVideo
  | FilterDocument, messageDocument
  | FilterAudio, messageAudio
  | FilterSticker, messageSticker
  | FilterAnimation, messageAnimation => true
  | _, _ => false
  end.

(** Lines 392-447. *)
Definition should_forward_message (st : t) (m : message) : bool :=
  if existsb (λ filter, bool_decide (filter = FilterAll)) (message_filters_ st)
  then true
  else
    let content_type := get_id (content_ m) in
    existsb (λ filter, filter_matches filter content_type) (message_filters_ st).

(** Lines 449-451. *)
Definition media_group_processed (media_group_id : string) (st : t) : bool :=
  bool_decide (media_group_id ∈ processed_media_groups_ st).

(** Lines 453-457. *)
Definition update_last_message_id (messages : list message) (st : t) : t :=
  fold_left (λ st m, with_last_message_id st (Z.max (last_message_id_ st) (id_ m)))
            messages st.

(** Lines 612-619. *)
Definition is_media_message (content_type : ContentId) : bool :=
  match content_type with
  | messagePhoto | messageVideo | messageDocument | messageAudio
  | messageAnimation | messageSticker => true
  | _ => false
  end.

(** Lines 521-546. *)
Definition forward_text_message (b : Backend) (st : t) (m : message)
  : Outcome bool * list Event :=
  let sent :=
    [query (MediaHandler.sendMessage (target_chat_id_ st)
              (MediaHandler.inputMessageText (text_ (content_ m))))] in
  match message_sent b with
  | NoResponse => (Throw (runtime_error "请求超时"), sent)
  | ErrorObject _ _ => (Ret false, sent)
  | Answered _ => (Ret true, sent)
  end.

(** Lines 548-569. *)
Definition forward_media_message (b : Backend) (st : t) (m : message)
  : bool * list Event :=
  let media_task := MediaHandler.settled (download_file b) m in
  if negb (bool_decide (MediaTask.state_ media_task = Completed))
  then (false, [download m])
  else
    let '(new_message, sent) :=
      MediaHandler.upload_media_get (target_chat_id_ st) media_task (message_sent b) in
    match new_message with
    | Ret _ => (true, download m :: map query sent)
    | _ => (false, download m :: map query sent)
    end.

(** Lines 502-519. *)
Definition forward_message (b : Backend) (st : t) (m : message)
  : Outcome bool * list Event :=
  let content_type := get_id (content_ m) in
  if bool_decide (content_type = messageText) then forward_text_message b st m
  else if is_media_message content_type then
    let '(ok, events) := forward_media_message b st m in (Ret ok, events)
  else (Ret false, []).

(** Lines 571-610. The loop of lines 585-587 waits until the group task
    [is_completed]; that holds for the task the download returns
    ([downloaded_group_is_completed]), so the loop body is never entered. *)
Definition forward_media_group (b : Backend) (st : t) (messages : list message)
  : bool * list Event :=
  match MediaHandler.download_media_group_get (download_file b) messages with
  | None => (false, [])
  | Some group_task =>
      let downloads := map download messages in
      if bool_decide (0 < MediaGroupTask.failed_count group_task)%nat
      then (false, downloads)
      else
        let '(new_messages, sent) :=
          MediaHandler.upload_media_group_get (target_chat_id_ st) group_task
            (album_sent b) in
        match new_messages with
        | Ret [] => (false, downloads ++ map query sent)
        | Ret (_ :: _) => (true, downloads ++ map query sent)
        | _ => (false, downloads ++ map query sent)
        end
  end.

Definition history_window (st : t) : Event :=
  query (MediaHandler.getChatHistory (source_chat_id_ st) 50 0).

(** The body of the loop over the batch, lines 213-274. *)
Definition forward_one (b : Backend) (m : message) (st : t) : t * list Event :=
  if negb (should_forward_message st m) then (st, [])
  else
    let media_group_id := get_media_group_id (Some m) in
    match media_group_id with
    | Some group_id =>
        if negb (media_group_processed group_id st) then
          match get_media_group_messages group_id (group_history b) with
          | Ret group_messages =>
              match group_messages with
              | [] => (st, [history_window st])
              | _ =>
                  let '(ok, events) := forward_media_group b st group_messages in
                  if ok then
                    let st1 :=
                      with_forwarded_count st
                        (forwarded_count_ st + Z.of_nat (length group_messages)) in
                    let st2 :=
                      with_processed_media_groups st1
                        ({[group_id]} ∪ processed_media_groups_ st1) in
                    (update_last_message_id group_messages st2,
                     history_window st :: events)
                  else
                    (with_failed_count st
                       (failed_count_ st + Z.of_nat (length group_messages)),
                     history_window st :: events)
              end
          | _ => (with_failed_count st (failed_count_ st + 1), [history_window st])
          end
        else
          (with_last_message_id st (Z.max (last_message_id_ st) (id_ m)), [])
    | None =>
        let '(ok, events) := forward_message b st m in
        match ok with
        | Ret true =>
            let st1 := with_forwarded_count st (forwarded_count_ st + 1) in
            (with_last_message_id st1 (Z.max (last_message_id_ st1) (id_ m)), events)
        | _ => (with_failed_count st (failed_count_ st + 1), events)
        end
    end.

(** The loop of lines 212-275: the [i]-th message of the batch is handled
    against [backend i]. *)
Fixpoint forward_batch (backend : nat -> Backend) (i : nat) (messages : list message)
    (st : t) : t * list Event :=
  match messages with
  | [] => (st, [])
  | m :: rest =>
      let '(st1, e1) := forward_one (backend i) m st in
      let '(st2, e2) := forward_batch backend (S i) rest st1 in
      (st2, e1 ++ e2)
  end.

(** How control leaves a statement of the loop body: it goes on to the next
    statement, or it jumps out of the loop. *)
Inductive Jump : Type := falls_through | break.

(** Line 283 reads [breaking;]. That is not the jump statement [break]: it
    names an identifier and drops its value, so control goes on to the
    statement that follows the [if], the sleep of line 287. *)
Definition breaking : Jump := falls_through.

(** What happens around one turn of the loop: whether [stop()] has set
    [stopping_] when the loop condition is tested, the answer to the history
    request of [get_new_messages], and the backend during each message. *)
Record Cycle : Type := {
  stop_requested : bool;
  new_messages : QueryResult MessageVector;
  backend : nat -> Backend;
}.

Inductive LoopEnd : Type :=
| polling
| left_loop
| thread_crashed.

Definition poll (st : t) : Event :=
  query (MediaHandler.getChatHistory (source_chat_id_ st)
           (max_history_messages (config_ st)) (- max_history_messages (config_ st))).

Definition is_nil {A : Type} (l : list A) : bool :=
  match l with [] => true | _ => false end.

(** One turn of the loop, lines 204-293. *)
Definition poll_cycle (c : Cycle) (st : t) : t * list Event * LoopEnd :=
  match get_new_messages (last_message_id_ st) (new_messages c) with
  | Throw _ => (st, [poll st; sleep_for (wait_time_ms_ st * 2)], polling)
  | Crash => (st, [poll st], thread_crashed)
  | Ret messages =>
      let '(st1, events) :=
        if negb (is_nil messages) then forward_batch (backend c) 0 messages st
        else (st, []) in
      let jump :=
        if bool_decide (mode (config_ st1) = OneTime) && negb (is_nil messages)
        then breaking else falls_through in
      match jump with
      | break => (st1, poll st :: events, left_loop)
      | falls_through =>
          (st1, poll st :: events ++ [sleep_for (wait_time_ms_ st1)], polling)
      end
  end.

(** The loop of lines 203-294 over the turns [cycles] describes. *)
Fixpoint forward_loop (cycles : list Cycle) (st : t) : t * list Event * LoopEnd :=
  match cycles with
  | [] => (st, [], polling)
  | c :: rest =>
      if running_ st && negb (stop_requested c) then
        match poll_cycle c st with
        | (st1, e1, polling) =>
            let '(st2, e2, r) := forward_loop rest st1 in (st2, e1 ++ e2, r)
        | ended => ended
        end
      else (st, [], left_loop)
  end.

(** Lines 196-300. *)
Definition forward_worker (cycles : list Cycle) (st : t) : t * list Event * LoopEnd :=
  match forward_loop cycles st with
  | (st', events, left_loop) =>
      (st', media_handler_start :: events ++ [media_handler_stop], left_loop)
  | (st', events, r) => (st', media_handler_start :: events, r)
  end.

End RestrictedChannelForwarder.

(** ** main.cpp *)

Module main.

(** The variables the loop over [argv] sets, lines 165-172. *)
Record Options : Type := {
  config_file : string;
  source_channel : string;
  target_channel : string;
  one_time_mode : bool;
  debug_mode : bool;
}.

Definition defaults : Options :=
  {| config_file := "config.json"; source_channel := ""; target_channel := "";
     one_time_mode := false; debug_mode := false |}.

(** How the loop ends: [main] goes on with the options, or returns [code]
    (what it prints before is left out). *)
Inductive Parsed : Type :=
| proceed (options : Options)
| returns (code : Z).

Definition is_option (arg short long : string) : bool :=
  String.eqb arg short || String.eqb arg long.

(** The loop of lines 175-214 over [argv[1]], ..., [argv[argc - 1]]. *)
Fixpoint parse_arguments (args : list string) (o : Options) : Parsed :=
  match args with
  | [] => proceed o
  | arg :: rest =>
      if is_option arg "-h" "--help" then returns 0
      else if is_option arg "-v" "--version" then returns 0
      else if is_option arg "-c" "--config" then
        match rest with
        | value :: rest' =>
            parse_arguments rest'
              {| config_file := value; source_channel := source_channel o;
                 target_channel := target_channel o;
                 one_time_mode := one_time_mode o; debug_mode := debug_mode o |}
        | [] => returns 1
        end
      else if is_option arg "-s" "--source" then
        match rest with
        | value :: rest' =>
            parse_arguments rest'
              {| config_file := config_file o; source_channel := value;
                 target_channel := target_channel o;
                 one_time_mode := one_time_mode o; debug_mode := debug_mode o |}
        | [] => returns 1
        end
      else if is_option arg "-t" "--target" then
        match rest with
        | value :: rest' =>
            parse_arguments rest'
              {| config_file := config_file o; source_channel := source_channel o;
                 target_channel := value;
                 one_time_mode := one_time_mode o; debug_mode := debug_mode o |}
        | [] => returns 1
        end
      else if is_option arg "-o" "--one-time" then
        parse_arguments rest
          {| config_file := config_file o; source_channel := source_channel o;
             target_channel := target_channel o;
             one_time_mode := true; debug_mode := debug_mode o |}
      else if is_option arg "-d" "--debug" then
        parse_arguments rest
          {| config_file := config_file o; source_channel := source_channel o;
             target_channel := target_channel o;
             one_time_mode := one_time_mode o; debug_mode := true |}
      else returns 1
  end.

End main.

(** * Vocabulary of the properties *)

Module ResolverSpec.
Import ChannelResolver.



(** Every cached valid identifier is cached with the value [std::stoll]
    reads from it. *)
Definition cache_consistent (cache : gmap string Z) : Prop :=
  ∀ s v, cache !! s = Some v → is_valid_channel_id s = true → stoll s = Ret v.

End ResolverSpec.

Module MediaSpec.
Import MediaHandler.

Section Engine.

Variable download_file : MediaTask.t -> DownloadResult.

(** No pair in the queue or in the hands of a worker, and no fulfilled
    promise, bears the number of a promise yet to be made. *)
Definition fresh_promises (h : MediaHandler.t) : Prop :=
  (∀ task p, (task, p) ∈ download_queue_ h → p < next_promise_ h)%nat ∧
  (∀ w task p, downloading_ h !! w = Some (task, p) → p < next_promise_ h)%nat ∧
  (∀ p task, promises_ h !! p = Some task → p < next_promise_ h)%nat.




End Engine.

End MediaSpec.

(** Concrete messages, handlers and backends the properties are tried on. *)
Module Examples.

Definition photo (id : Z) (album : string) : message :=
  {| id_ := id; chat_id_ := -1001;
     content_ := {| get_id := messagePhoto; media_album_id_ := album; text_ := "" |} |}.

Definition text (id : Z) (body : string) : message :=
  {| id_ := id; chat_id_ := -1001;
     content_ := {| get_id := messageText; media_album_id_ := ""; text_ := body |} |}.

(** A started media handler with two download workers and nothing to do. *)
Definition started : MediaHandler.t :=
  {| MediaHandler.running_ := true;
     MediaHandler.max_concurrent_downloads_ := 2;
     MediaHandler.download_queue_ := [];
     MediaHandler.downloading_ := ∅;
     MediaHandler.active_downloads_ := 0;
     MediaHandler.promises_ := ∅;
     MediaHandler.next_promise_ := 0 |}.

(** The handler after [stop]; two promises were handed out before. *)
Definition stopped : MediaHandler.t :=
  {| MediaHandler.running_ := false;
     MediaHandler.max_concurrent_downloads_ := 2;
     MediaHandler.download_queue_ := [];
     MediaHandler.downloading_ := ∅;
     MediaHandler.active_downloads_ := 0;
     MediaHandler.promises_ := ∅;
     MediaHandler.next_promise_ := 2 |}.

Definition album : list message := [photo 1 "a"; photo 2 "a"; photo 3 "a"].

(** Three tasks of an album as the workers leave them: a photo without a
    caption, a voice note and a video with the caption "holiday". *)
Definition downloaded_album : list MediaTask.t :=
  [MediaTask.set_state Completed (MediaTask.new Download (photo 1 "a"));
   MediaTask.set_state Completed
     (MediaTask.new Download
        {| id_ := 2; chat_id_ := -1001;
           content_ := {| get_id := messageVoiceNote; media_album_id_ := "";
                          text_ := "" |} |});
   MediaTask.set_state Completed
     (MediaTask.new Download
        {| id_ := 3; chat_id_ := -1001;
           content_ := {| get_id := messageVideo; media_album_id_ := "a";
                          text_ := "holiday" |} |})].

(** Every download succeeds but that of message 2. *)
Definition second_fails (task : MediaTask.t) : MediaHandler.DownloadResult :=
  if decide (td_api.id_ (MediaTask.message_ task) = 2)
  then MediaHandler.download_throws (MediaError "文件下载未完成")
  else MediaHandler.downloaded "data" "media.jpg".

(** The two workers take messages 1 and 2; the second download ends first,
    then worker 1 takes and ends message 3 before message 1 is done. *)
Definition out_of_order : list MediaHandler.Action :=
  [MediaHandler.worker_takes 0; MediaHandler.worker_takes 1;
   MediaHandler.joiner_joins;
   MediaHandler.worker_finishes 1; MediaHandler.worker_takes 1;
   MediaHandler.worker_finishes 1; MediaHandler.joiner_joins;
   MediaHandler.worker_finishes 0;
   MediaHandler.joiner_joins; MediaHandler.joiner_joins;
   MediaHandler.joiner_joins; MediaHandler.joiner_joins].

(** A client with two requests pending, made with the ids 1 and 2. *)
Definition two_pending : ClientManager.t :=
  {| ClientManager.client_id_ := Some 1;
     ClientManager.state_ := ClientManager.Ready;
     ClientManager.running_ := true;
     ClientManager.response_handlers_ :=
       [(1, ClientManager.callback "first"); (2, ClientManager.callback "second")];
     ClientManager.update_handlers_ := ∅;
     ClientManager.query_id_ := 2 |}.

(** A client with no request pending, six requests made so far. *)
Definition quiet : ClientManager.t :=
  {| ClientManager.client_id_ := Some 1;
     ClientManager.state_ := ClientManager.Ready;
     ClientManager.running_ := true;
     ClientManager.response_handlers_ := [];
     ClientManager.update_handlers_ := ∅;
     ClientManager.query_id_ := 6 |}.

(** The response of the backend to the request made with the id [request]. *)
Definition answer_to (request : Z) (o : ClientManager.Object) : ClientManager.Response :=
  {| ClientManager.client_id := 1;
     ClientManager.request_id := request;
     ClientManager.object := Some o |}.

Definition config (m : RestrictedChannelForwarder.ForwarderMode)
  : RestrictedChannelForwarder.ForwarderConfig :=
  {| RestrictedChannelForwarder.mode := m;
     RestrictedChannelForwarder.wait_time_ms := 1000;
     RestrictedChannelForwarder.max_history_messages := 100;
     RestrictedChannelForwarder.max_concurrent_downloads := 2;
     RestrictedChannelForwarder.max_concurrent_uploads := 2;
     RestrictedChannelForwarder.message_filters := [] |}.

(** A forwarder initialised with [config m] and started with its cursor at
    [cursor]. *)
Definition forwarder (m : RestrictedChannelForwarder.ForwarderMode) (cursor : Z)
  : RestrictedChannelForwarder.t :=
  RestrictedChannelForwarder.init (config m)
    {| RestrictedChannelForwarder.config_ := config m;
       RestrictedChannelForwarder.running_ := true;
       RestrictedChannelForwarder.wait_time_ms_ := 1000;
       RestrictedChannelForwarder.source_chat_id_ := -1001;
       RestrictedChannelForwarder.target_chat_id_ := -1002;
       RestrictedChannelForwarder.last_message_id_ := cursor;
       RestrictedChannelForwarder.forwarded_count_ := 0;
       RestrictedChannelForwarder.failed_count_ := 0;
       RestrictedChannelForwarder.message_filters_ := [];
       RestrictedChannelForwarder.processed_media_groups_ := ∅ |}.

(** The same forwarder, configured to forward photos only. *)
Definition photos_only (cursor : Z) : RestrictedChannelForwarder.t :=
  RestrictedChannelForwarder.init
    {| RestrictedChannelForwarder.mode := RestrictedChannelForwarder.Continuous;
       RestrictedChannelForwarder.wait_time_ms := 1000;
       RestrictedChannelForwarder.max_history_messages := 100;
       RestrictedChannelForwarder.max_concurrent_downloads := 2;
       RestrictedChannelForwarder.max_concurrent_uploads := 2;
       RestrictedChannelForwarder.message_filters := ["photo"] |}
    (forwarder RestrictedChannelForwarder.Continuous cursor).

(** A backend that answers every request and whose downloads succeed; its
    recent history is [history]. *)
Definition obliging (history : MessageVector) : RestrictedChannelForwarder.Backend :=
  {| RestrictedChannelForwarder.group_history := Answered history;
     RestrictedChannelForwarder.download_file :=
       λ _, MediaHandler.downloaded "data" "media.jpg";
     RestrictedChannelForwarder.message_sent := Answered (text 900 "");
     RestrictedChannelForwarder.album_sent := Answered history |}.


(** A backend that answers every request with an error object. *)
Definition refusing : RestrictedChannelForwarder.Backend :=
  {| RestrictedChannelForwarder.group_history := ErrorObject 400 "CHAT_WRITE_FORBIDDEN";
     RestrictedChannelForwarder.download_file :=
       λ _, MediaHandler.download_throws (MediaError "文件下载未完成");
     RestrictedChannelForwarder.message_sent := ErrorObject 400 "CHAT_WRITE_FORBIDDEN";
     RestrictedChannelForwarder.album_sent := ErrorObject 400 "CHAT_WRITE_FORBIDDEN" |}.

(** A turn of the poll loop with no stop request. *)
Definition cycle (history : MessageVector)
    (backend : nat -> RestrictedChannelForwarder.Backend)
  : RestrictedChannelForwarder.Cycle :=
  {| RestrictedChannelForwarder.stop_requested := false;
     RestrictedChannelForwarder.new_messages := Answered history;
     RestrictedChannelForwarder.backend := backend |}.




End Examples.

Module GatewaySpec.
Import ClientManager.

(** Step (2) of the dispatch loop as the specification words it: a response
    that is no authentication-state event and whose id matches a pending
    request removes that request and calls its handler with the payload,
    and calls no other. [outcome] is what the dispatch of [response] did
    from [cm]. *)
Definition dispatched_by_id (response : Response) (cm : ClientManager.t)
    (outcome : ClientManager.t * list Effect * Completion) : Prop :=
  ∀ o handler,
    object response = Some o →
    get_id o ≠ updateAuthorizationState_ID →
    std_map.find (request_id response) (response_handlers_ cm) = Some handler →
    outcome =
      (with_response_handlers cm
         (std_map.erase (request_id response) (response_handlers_ cm)),
       [ResponseHandlerCalled (request_id response) handler o],
       Normal).

(** No response of [inbound] answers the request made with [query_id]. *)
Definition never_answered (query_id : Z) (inbound : list Response) : Prop :=
  ∀ response, response ∈ inbound → request_id response ≠ query_id.

End GatewaySpec.

Module ForwarderSpec.
Import RestrictedChannelForwarder.

(** The event sends a message or an album to the target chat. *)
Definition sends (e : Event) : Prop :=
  match e with
  | query (MediaHandler.sendMessage _ _)
  | query (MediaHandler.sendMessageAlbum _ _) => True
  | _ => False
  end.

(** The download of [member] ends in the [Failed] state on backend [b]. *)
Definition download_fails (b : Backend) (member : message) : Prop :=
  MediaTask.state_ (MediaHandler.settled (download_file b) member) = Failed.

Definition download_completes (b : Backend) (member : message) : Prop :=
  MediaTask.state_ (MediaHandler.settled (download_file b) member) = Completed.

#[global] Instance download_fails_dec (b : Backend) (member : message)
  : Decision (download_fails b member).
Proof. unfold download_fails. apply _. Defined.

#[global] Instance download_completes_dec (b : Backend) (member : message)
  : Decision (download_completes b member).
Proof. unfold download_completes. apply _. Defined.

End ForwarderSpec.

Module LinkSpec.
Import ChannelResolver.

(** The characters the pattern [[^/\s]+] of [extract_username_from_link]
    accepts, and a text at which such a run ends. *)
Definition username_chars (s : string) : Prop :=
  Forall (λ c, username_char c = true) (list_ascii_of_string s).

Definition ends_username (rest : string) : Prop :=
  match rest with
  | EmptyString => True
  | String c _ => username_char c = false
  end.

End LinkSpec.

Module DispatchSpec.
Import ClientManager.

(** The response handlers a trace called, in the order of the calls, each
    with the query id it was pending under. *)
Definition response_handlers_called (effects : list Effect)
  : list (Z * ResponseHandler) :=
  omap (λ e, match e with
             | ResponseHandlerCalled query_id handler _ => Some (query_id, handler)
             | _ => None
             end) effects.

(** The object a handler call of the trace was given. *)
Definition delivered (e : Effect) : option Object :=
  match e with
  | ResponseHandlerCalled _ _ o | UpdateHandlerCalled _ o => Some o
  | _ => None
  end.

(** What the dispatch thread leaves untouched. *)
Definition same_registration (cm cm' : ClientManager.t) : Prop :=
  update_handlers_ cm' = update_handlers_ cm ∧
  client_id_ cm' = client_id_ cm ∧
  running_ cm' = running_ cm.

(** What a run of the dispatch thread does to the registrations: the
    response handlers it calls are taken off the front of the pending ones,
    it hands a response handler no object but [ok], and it registers and
    unregisters nothing else. *)
Definition dispatch_law (cm : ClientManager.t)
    (outcome : ClientManager.t * list Effect * Completion) : Prop :=
  response_handlers_called outcome.1.2 ++ response_handlers_ outcome.1.1
    = response_handlers_ cm ∧
  Forall (λ e, ∀ query_id handler o,
            e = ResponseHandlerCalled query_id handler o → o = ok) outcome.1.2 ∧
  same_registration cm outcome.1.1.

End DispatchSpec.

Module TaskSpec.
Import MediaHandler.

(** The task has ended, one way or the other. *)
Definition ended (task : MediaTask.t) : Prop :=
  MediaTask.state_ task = Completed ∨ MediaTask.state_ task = Failed.

Definition progress_in_range (task : MediaTask.t) : Prop :=
  0 ≤ MediaTask.progress_ task ≤ 100.

(** The tasks [upload_media_group] makes an album item of. *)
Definition album_kind (task : MediaTask.t) : bool :=
  match get_media_type (Some (MediaTask.message_ task)) with
  | Photo | Video | Document => true
  | _ => false
  end.

Definition caption_of_task (task : MediaTask.t) : string :=
  get_caption (Some (MediaTask.message_ task)).

Definition caption_on (content : InputMessageContent) : option string :=
  match content with
  | inputMessageMedia _ _ caption => caption
  | inputMessageText _ => None
  end.


End TaskSpec.

Module UtilsSpec.

Definition no_underscore (s : string) : Prop :=
  Forall (λ c, c ≠ "_"%char) (list_ascii_of_string s).

End UtilsSpec.

Module TraceSpec.
Import MediaHandler RestrictedChannelForwarder.

(** The request of the event goes where the forwarder [st] is set up to
    read and to write: a history request to the source chat, a message or
    an album to the target chat. *)
Definition addressed (st : RestrictedChannelForwarder.t) (e : Event) : Prop :=
  match e with
  | query (getChatHistory chat _ _) => chat = source_chat_id_ st
  | query (sendMessage chat _) => chat = target_chat_id_ st
  | query (sendMessageAlbum chat _) => chat = target_chat_id_ st
  | _ => True
  end.

(** What a stretch of the forwarder's work, from [st] to [st'] with the
    trace [events], keeps: its requests are addressed as above, the two
    chats stay, the counters do not fall, and the counter of forwarded
    messages moves only if something was sent. *)
Definition forwarding_law (st st' : RestrictedChannelForwarder.t)
    (events : list Event) : Prop :=
  Forall (addressed st) events ∧
  source_chat_id_ st' = source_chat_id_ st ∧
  target_chat_id_ st' = target_chat_id_ st ∧
  forwarded_count_ st ≤ forwarded_count_ st' ∧
  failed_count_ st ≤ failed_count_ st' ∧
  (forwarded_count_ st' = forwarded_count_ st ∨ Exists ForwarderSpec.sends events).

(** Every download of the trace is of a message above the cursor [cursor],
    or of a member of an album. *)
Definition downloads_new_or_album (cursor : Z) (events : list Event) : Prop :=
  ∀ m, download m ∈ events →
       cursor < id_ m ∨ is_Some (get_media_group_id (Some m)).


End TraceSpec.

Module CommandLineSpec.
Import main.

(** A setting given on the command line, and the words that give it, in
    the short or in the long spelling of its option. *)
Inductive Setting : Type :=
| use_config (file : string)
| use_source (channel : string)
| use_target (channel : string)
| run_once
| log_debug.

Definition words (long : bool) (setting : Setting) : list string :=
  match setting with
  | use_config file => [if long then "--config" else "-c"; file]
  | use_source channel => [if long then "--source" else "-s"; channel]
  | use_target channel => [if long then "--target" else "-t"; channel]
  | run_once => [if long then "--one-time" else "-o"]
  | log_debug => [if long then "--debug" else "-d"]
  end.

Definition command_line (settings : list (bool * Setting)) : list string :=
  concat ((λ s, words s.1 s.2) <$> settings).

(** The options with [setting] made. *)
Definition with_setting (o : Options) (setting : Setting) : Options :=
  match setting with
  | use_config file =>
      {| config_file := file; source_channel := source_channel o;
         target_channel := target_channel o;
         one_time_mode := one_time_mode o; debug_mode := debug_mode o |}
  | use_source channel =>
      {| config_file := config_file o; source_channel := channel;
         target_channel := target_channel o;
         one_time_mode := one_time_mode o; debug_mode := debug_mode o |}
  | use_target channel =>
      {| config_file := config_file o; source_channel := source_channel o;
         target_channel := channel;
         one_time_mode := one_time_mode o; debug_mode := debug_mode o |}
  | run_once =>
      {| config_file := config_file o; source_channel := source_channel o;
         target_channel := target_channel o;
         one_time_mode := true; debug_mode := debug_mode o |}
  | log_debug =>
      {| config_file := config_file o; source_channel := source_channel o;
         target_channel := target_channel o;
         one_time_mode := one_time_mode o; debug_mode := true |}
  end.

(** The words the loop knows as options. *)
Definition known : list string :=
  ["-h"; "--help"; "-v"; "--version"; "-c"; "--config"; "-s"; "--source";
   "-t"; "--target"; "-o"; "--one-time"; "-d"; "--debug"].

End CommandLineSpec.

(** * Properties *)

(** ** Channel identifiers *)

Module ResolverFacts.
Import ChannelResolver ResolverSpec.





Lemma is_valid_channel_id_prefixed (digits : string) :
  digits ≠ "" → all_digits digits = true →
  is_valid_channel_id ("-100" +:+ digits) = true.
Proof.
  intros Hne Hd. unfold is_valid_channel_id.
  change ("-100" +:+ digits) with (String "-" (String "1" (String "0" (String "0" digits)))).
  cbn [string_empty substring string_drop String.length].
  rewrite Hd. destruct digits; [done|]. reflexivity.
Qed.


(** The resolver keeps its cache consistent, whatever the backend answers. *)
Lemma resolve_channel_sync_consistent searchPublicChat (id : string)
    (cache : gmap string Z) :
  cache_consistent cache →
  cache_consistent (channel_cache_ (resolve_channel_sync searchPublicChat id cache)).
Proof.
  intros Hc. unfold resolve_channel_sync.
  destruct (cache !! id) as [cached|] eqn:Hlook; [done|].
  destruct (is_valid_channel_id id) eqn:Hvalid.
  - destruct (stoll id) as [v| |] eqn:Hs; simpl; try done.
    intros s w Hsw Hsv. destruct (decide (id = s)) as [->|Hne].
    + rewrite lookup_insert_eq in Hsw. congruence.
    + rewrite lookup_insert_ne in Hsw by done. by apply Hc.
  - set (username := if contains "t.me/" id then _ else _).
    destruct username as [u| |]; simpl; try done.
    destruct (get_chat_id_by_username searchPublicChat u) as [v| |]; simpl; try done.
    intros s w Hsw Hsv. destruct (decide (id = s)) as [->|Hne].
    + congruence.
    + rewrite lookup_insert_ne in Hsw by done. by apply Hc.
Qed.

Lemma empty_cache_consistent : cache_consistent ∅.
Proof. intros s v Hsv. by rewrite lookup_empty in Hsv. Qed.

Lemma clear_cache_consistent (cache : gmap string Z) :
  cache_consistent (clear_cache cache).
Proof. intros s v Hsv. unfold clear_cache in Hsv. by rewrite lookup_empty in Hsv. Qed.




End ResolverFacts.

(** ** The media handler *)

Module MediaFacts.
Import MediaHandler MediaSpec.

(** C10. Called with no message, or with a first message that carries no
    album id, [download_media_group] returns a future already set to the
    null group task and leaves the handler, its queue included, as it was. *)
Theorem download_media_group_null (messages : MessageVector) (h : MediaHandler.t) :
  messages = [] ∨
  (∃ first rest, messages = first :: rest ∧ get_media_group_id first = None) →
  download_media_group messages h = Ret (ready_nullptr, h).
Proof.
  intros [-> | (first & rest & -> & Hnone)]; [reflexivity|].
  unfold download_media_group. by rewrite Hnone.
Qed.

Lemma download_media_group_null_witness :
  download_media_group [] Examples.started = Ret (ready_nullptr, Examples.started) ∧
  download_media_group [Some (Examples.text 7 "hello"); Some (Examples.photo 8 "a")]
    Examples.started = Ret (ready_nullptr, Examples.started).
Proof.
  split.
  - apply download_media_group_null. left. reflexivity.
  - apply download_media_group_null. right.
    exists (Some (Examples.text 7 "hello")), [Some (Examples.photo 8 "a")].
    split; reflexivity.
Defined.

Section Engine.

Variable download_file : MediaTask.t -> DownloadResult.

Lemma download_each_spec (messages : list message) (h : MediaHandler.t) :
  download_each messages h =
    (seq (next_promise_ h) (length messages),
     with_queue h
       (download_queue_ h
          ++ imap (λ i m, (MediaTask.new Download m, (next_promise_ h + i)%nat)) messages)
       (next_promise_ h + length messages)).
Proof.
  revert h. induction messages as [|m rest IH]; intros h.
  - destruct h. unfold with_queue. simpl. by rewrite app_nil_r, Nat.add_0_r.
  - cbn [download_each]. unfold download_media. rewrite IH.
    destruct h as [r mx q d a pr n]. unfold with_queue. cbn.
    rewrite <- app_assoc. cbn. rewrite Nat.add_0_r, Nat.add_succ_r.
    do 4 f_equal. apply imap_ext. intros i x _. cbn. f_equal. lia.
Qed.






(** [fresh_promises] holds of every state the handler reaches: it holds
    when nothing was queued yet, and queuing and the steps of the threads
    keep it. *)
Lemma fresh_promises_download_media (m : message) (h : MediaHandler.t) :
  fresh_promises h → fresh_promises (download_media m h).2.
Proof.
  intros (Hq & Hd & Hp). unfold download_media. repeat split; cbn.
  - intros task p [Hin|Hin%list_elem_of_singleton]%elem_of_app.
    + apply Hq in Hin. lia.
    + injection Hin as _ ->. lia.
  - intros w task p Hw. apply Hd in Hw. lia.
  - intros p task Hlook. apply Hp in Hlook. lia.
Qed.

Lemma fresh_promises_step (a : Action) (s : MediaHandler.t * Joiner) :
  fresh_promises s.1 → fresh_promises (step download_file a s).1.
Proof.
  intros Hfresh. pose proof Hfresh as (Hq & Hd & Hp).
  destruct s as [h j]. cbn [fst snd] in *.
  destruct a as [w|w|]; cbn [step fst snd]; [| |done].
  - unfold take_from_queue.
    destruct (running_ h && bool_decide (w < max_concurrent_downloads_ h)%nat); [|done].
    destruct (downloading_ h !! w) as [busy|] eqn:Hw; [done|].
    destruct (download_queue_ h) as [|[task0 promise0] rest] eqn:Hqueue; [done|].
    repeat split; cbn.
    + intros task p Hin. apply (Hq task). by right.
    + intros w' task p. destruct (decide (w = w')) as [<-|Hne].
      * rewrite lookup_insert_eq. intros [= _ <-]. apply (Hq task0). by left.
      * rewrite lookup_insert_ne by done. apply Hd.
    + done.
  - unfold finish_download.
    destruct (downloading_ h !! w) as [[task0 promise0]|] eqn:Hw; [|done].
    repeat split; cbn.
    + done.
    + intros w' task p. destruct (decide (w = w')) as [<-|Hne].
      * by rewrite lookup_delete_eq.
      * rewrite lookup_delete_ne by done. apply Hd.
    + intros p task. destruct (decide (promise0 = p)) as [<-|Hne].
      * intros _. by eapply Hd.
      * rewrite lookup_insert_ne by done. apply Hp.
Qed.

Lemma non_null_Some (messages : list message) :
  non_null (Some <$> messages) = Some messages.
Proof. induction messages as [|m rest IH]; [done|]. cbn. by rewrite IH. Qed.

(** What [download_media_group] returns for messages none of which is null. *)
Lemma download_media_group_joiner (messages : list message) (h h1 : MediaHandler.t)
    (j : Joiner) :
  download_media_group (Some <$> messages) h = Ret (set_by j, h1) →
  ∃ first group_id,
    head messages = Some first ∧
    get_media_group_id (Some first) = Some group_id ∧
    h1 = (download_each messages h).2 ∧
    j = {| futures_ := (download_each messages h).1;
           group_task_ := MediaGroupTask.new group_id;
           group_promise_ := None |}.
Proof.
  unfold download_media_group. destruct messages as [|first rest]; [done|].
  cbn [fmap list_fmap].
  destruct (get_media_group_id (Some first)) as [group_id|] eqn:Hid; [|done].
  change (Some first :: (Some <$> rest)) with (Some <$> first :: rest).
  rewrite non_null_Some. destruct (download_each (first :: rest) h) as [futures h'].
  intros [= Hj Hh]. subst. by exists first, group_id.
Qed.








End Engine.



End MediaFacts.

(** ** The request gateway *)

Module GatewayFacts.
Import ClientManager GatewaySpec.

Lemma find_erase {V : Type} (k : Z) (m : list (Z * V)) :
  std_map.find k (std_map.erase k m) = None.
Proof.
  induction m as [|[k' v] rest IH]; [done|]. cbn.
  destruct (k' =? k) eqn:Hk; [done|]. cbn. by rewrite Hk.
Qed.

Section Dispatch.

Variable phone_number console_input : string.
Variable MessageContentType_Proxy : ObjectId.

Abbreviation process_updates_step :=
  (process_updates_step phone_number console_input MessageContentType_Proxy).
Abbreviation process_updates :=
  (process_updates phone_number console_input MessageContentType_Proxy).
Abbreviation send_query :=
  (send_query phone_number console_input MessageContentType_Proxy).

(** The dispatch of a response does not depend on the request id it
    carries: [process_updates] passes the object on without it. *)
Lemma dispatch_ignores_request_id (c r1 r2 : Z) (o : option Object)
    (cm : ClientManager.t) :
  process_updates_step {| client_id := c; request_id := r1; object := o |} cm =
  process_updates_step {| client_id := c; request_id := r2; object := o |} cm.
Proof. reflexivity. Qed.

(** When the promise of a synchronous call is still unset as its wait ends,
    the call throws the time-out error and its handler is no longer
    pending (lines 181-186). *)
Lemma send_query_timeout (query : Function) (promise : nat)
    (inbound : list Response) (cm cm2 : ClientManager.t) (c : Z)
    (effects : list Effect) :
  client_id_ cm = Some c →
  let query_id := (query_id_ cm + 1) mod UINT64_MODULUS in
  let cm1 :=
    with_response_handlers (with_query_id cm query_id)
      (std_map.insert_or_assign query_id (set_promise promise) (response_handlers_ cm)) in
  process_updates inbound cm1 = (cm2, effects, Normal) →
  promise_value promise effects = None →
  ∃ cm',
    send_query query promise inbound cm =
      (Throw (runtime_error "请求超时"), cm', Sent query_id query :: effects) ∧
    std_map.find query_id (response_handlers_ cm') = None.
Proof.
  intros Hc query_id cm1 Hrun Hunset. eexists. split.
  - unfold ClientManager.send_query, send_query_async. rewrite Hc.
    fold query_id. cbn [with_query_id response_handlers_]. fold cm1.
    rewrite Hrun, Hunset. reflexivity.
  - cbn. apply find_erase.
Qed.

Lemma ok_with_two_pending :
  process_updates_step (Examples.answer_to 2 ok) Examples.two_pending =
    if decide (ok_ID = MessageContentType_Proxy)
    then (Examples.two_pending, [], Crashed)
    else
      (with_response_handlers Examples.two_pending [(2, callback "second")],
       [ResponseHandlerCalled 1 (callback "first") ok],
       Normal).
Proof.
  unfold ClientManager.process_updates_step, ClientManager.process_response,
    after_callback_check.
  cbn. destruct (decide (ok_ID = MessageContentType_Proxy)) as [Heq|Hne]; reflexivity.
Qed.

(** C1 at a failing input. Two requests are pending, made with the ids 1
    and 2, and the response to request 2 arrives, an [ok]. The dispatch
    removes request 1 and calls its handler with the payload; request 2
    stays pending. (Should the constant of line 311 be the identifier of
    [ok], the loop dereferences a null pointer instead.) Either way the
    response is not dispatched by its id. *)
Theorem response_given_to_least_pending_request :
  std_map.find 2 (response_handlers_ Examples.two_pending) = Some (callback "second") ∧
  process_updates_step (Examples.answer_to 2 ok) Examples.two_pending =
    (if decide (ok_ID = MessageContentType_Proxy)
     then (Examples.two_pending, [], Crashed)
     else
       (with_response_handlers Examples.two_pending [(2, callback "second")],
        [ResponseHandlerCalled 1 (callback "first") ok],
        Normal)) ∧
  ¬ dispatched_by_id (Examples.answer_to 2 ok) Examples.two_pending
      (process_updates_step (Examples.answer_to 2 ok) Examples.two_pending).
Proof.
  split; [reflexivity|]. split; [apply ok_with_two_pending|].
  intros H. specialize (H ok (callback "second") eq_refl).
  rewrite ok_with_two_pending in H.
  destruct (decide (ok_ID = MessageContentType_Proxy));
    by specialize (H ltac:(discriminate) eq_refl).
Qed.

(** C7 at two failing inputs. First: a synchronous call is made with the
    id 7 and the only response that arrives answers request 2; the call
    does not time out, it returns that response. Second: a call made with
    the id 3 times out while requests 1 and 2 are pending; its handler is
    removed, and the response to request 3, arriving later, is given to the
    handler of request 1. *)
Theorem send_query_and_responses_to_other_requests :
  never_answered 7 [Examples.answer_to 2 ok] ∧
  send_query (function "getChat") 0 [Examples.answer_to 2 ok] Examples.quiet =
    (if decide (ok_ID = MessageContentType_Proxy)
     then (Crash,
           with_response_handlers (with_query_id Examples.quiet 7) [(7, set_promise 0)],
           [Sent 7 (function "getChat")])
     else (Ret ok, with_query_id Examples.quiet 7,
           [Sent 7 (function "getChat");
            ResponseHandlerCalled 7 (set_promise 0) ok])) ∧
  let timed_out := with_query_id Examples.two_pending 3 in
  send_query (function "getChat") 0 [] Examples.two_pending =
    (Throw (runtime_error "请求超时"), timed_out, [Sent 3 (function "getChat")]) ∧
  process_updates_step (Examples.answer_to 3 ok) timed_out =
    (if decide (ok_ID = MessageContentType_Proxy)
     then (timed_out, [], Crashed)
     else (with_response_handlers timed_out [(2, callback "second")],
           [ResponseHandlerCalled 1 (callback "first") ok],
           Normal)).
Proof.
  split; [|split; [|split]].
  - intros response ->%list_elem_of_singleton. discriminate.
  - unfold ClientManager.send_query, ClientManager.process_updates,
      ClientManager.process_updates_step, ClientManager.process_response,
      after_callback_check.
    cbn. destruct (decide (ok_ID = MessageContentType_Proxy)); reflexivity.
  - reflexivity.
  - unfold ClientManager.process_updates_step, ClientManager.process_response,
      after_callback_check.
    cbn. destruct (decide (ok_ID = MessageContentType_Proxy)); reflexivity.
Qed.

End Dispatch.

End GatewayFacts.

(** ** The forwarding loop *)

Module ForwarderFacts.
Import MediaHandler RestrictedChannelForwarder.

(** *** The cursor *)

Lemma update_last_message_id_spec (messages : list message)
    (st : RestrictedChannelForwarder.t) :
  let st' := update_last_message_id messages st in
  last_message_id_ st ≤ last_message_id_ st' ∧
  (∀ m, m ∈ messages → id_ m ≤ last_message_id_ st') ∧
  processed_media_groups_ st' = processed_media_groups_ st ∧
  message_filters_ st' = message_filters_ st ∧
  forwarded_count_ st' = forwarded_count_ st ∧
  failed_count_ st' = failed_count_ st ∧
  config_ st' = config_ st ∧ running_ st' = running_ st ∧
  wait_time_ms_ st' = wait_time_ms_ st ∧
  source_chat_id_ st' = source_chat_id_ st.
Proof.
  revert st. induction messages as [|m rest IH]; intros st.
  - cbn. repeat split; try done. intros m Hin. by apply elem_of_nil in Hin.
  - cbn [update_last_message_id fold_left]. cbn zeta in IH.
    specialize (IH (with_last_message_id st (Z.max (last_message_id_ st) (id_ m)))).
    unfold update_last_message_id in IH.
    destruct IH as (Hle & Hall & -> & -> & -> & -> & -> & -> & -> & ->).
    cbn in Hle. repeat split; try done; [lia|].
    intros m' [->|Hin]%elem_of_cons; [lia|by apply Hall].
Qed.

Lemma forward_one_cursor (b : Backend) (m : message) (st : RestrictedChannelForwarder.t) :
  last_message_id_ st ≤ last_message_id_ (forward_one b m st).1.
Proof.
  unfold forward_one.
  repeat (case_match; cbn [fst snd last_message_id_ with_failed_count
                             with_last_message_id with_forwarded_count]);
    try lia.
  match goal with
  | |- _ ≤ last_message_id_ (update_last_message_id ?ms ?st') =>
      pose proof (update_last_message_id_spec ms st') as [Hle _]; exact Hle
  end.
Qed.

Lemma forward_batch_cursor (backend : nat → Backend) (i : nat)
    (messages : list message) (st : RestrictedChannelForwarder.t) :
  last_message_id_ st ≤ last_message_id_ (forward_batch backend i messages st).1.
Proof.
  revert i st. induction messages as [|m rest IH]; intros i st; [done|].
  cbn [forward_batch].
  pose proof (forward_one_cursor (backend i) m st) as H1.
  destruct (forward_one (backend i) m st) as [st1 e1].
  specialize (IH (S i) st1).
  destruct (forward_batch backend (S i) rest st1) as [st2 e2]. cbn in *. lia.
Qed.

Lemma poll_cycle_cursor (c : Cycle) (st : RestrictedChannelForwarder.t) :
  last_message_id_ st ≤ last_message_id_ (poll_cycle c st).1.1.
Proof.
  unfold poll_cycle.
  destruct (get_new_messages _ _) as [messages| |]; [|done|done].
  pose proof (forward_batch_cursor (backend c) 0 messages st) as H.
  destruct (negb (is_nil messages)); [|by destruct (_ && _)].
  destruct (forward_batch _ _ _ _) as [st1 events].
  unfold breaking. by destruct (_ && _).
Qed.

Lemma forward_loop_cursor (cycles : list Cycle) (st : RestrictedChannelForwarder.t) :
  last_message_id_ st ≤ last_message_id_ (forward_loop cycles st).1.1.
Proof.
  revert st. induction cycles as [|c rest IH]; intros st; [done|].
  cbn [forward_loop]. destruct (running_ st && negb (stop_requested c)); [|done].
  pose proof (poll_cycle_cursor c st) as H1.
  destruct (poll_cycle c st) as [[st1 e1] [| |]]; [|done|done].
  specialize (IH st1). destruct (forward_loop rest st1) as [[st2 e2] r].
  cbn in *. lia.
Qed.

(** C6. The cursor never decreases: not while one message is handled, not
    over a turn of the loop (the turn that ends in the catch of line 288
    and is retried included), not over any run of the forwarder thread. *)
Theorem cursor_never_decreases :
  (∀ b m st, last_message_id_ st ≤ last_message_id_ (forward_one b m st).1) ∧
  (∀ c st, last_message_id_ st ≤ last_message_id_ (poll_cycle c st).1.1) ∧
  (∀ cycles st, last_message_id_ st ≤ last_message_id_ (forward_worker cycles st).1.1).
Proof.
  split; [exact forward_one_cursor|]. split; [exact poll_cycle_cursor|].
  intros cycles st. unfold forward_worker.
  pose proof (forward_loop_cursor cycles st) as H.
  by destruct (forward_loop cycles st) as [[st' events] [| |]].
Qed.

(** *** Messages that are not forwarded *)

Lemma newer_than_elem (cursor : Z) (history : MessageVector)
    (newer : list message) (m : message) :
  newer_than cursor history = Some newer →
  Some m ∈ history → cursor < id_ m → m ∈ newer.
Proof.
  revert newer. induction history as [|[x|] rest IH]; intros newer Hnewer Hin Hlt.
  - by apply elem_of_nil in Hin.
  - cbn in Hnewer. destruct (newer_than cursor rest) as [newer'|]; [|done].
    cbn in Hnewer. injection Hnewer as <-.
    apply elem_of_cons in Hin as [[= <-]|Hin].
    + apply Z.ltb_lt in Hlt. rewrite Hlt. by left.
    + specialize (IH newer' eq_refl Hin Hlt).
      destruct (cursor <? id_ x); [by right|done].
  - done.
Qed.

(** A poll returns every message of the history that is newer than the
    cursor. *)
Lemma get_new_messages_elem (cursor : Z) (history : MessageVector)
    (batch : list message) (m : message) :
  get_new_messages cursor (Answered history) = Ret batch →
  Some m ∈ history → cursor < id_ m → m ∈ batch.
Proof.
  unfold get_new_messages.
  destruct (newer_than cursor history) as [newer|] eqn:Hnewer; [|done].
  intros [= <-] Hin Hlt. unfold sort_by_id.
  rewrite merge_sort_Permutation. by eapply newer_than_elem.
Qed.

(** C2, as amended. When the forwarding of an ordinary message (one of no
    album, which passes the filter) fails, by returning [false] or by
    throwing, the failure is counted and the cursor stays where it was; a
    later poll returns the message again as long as the cursor is below its
    id. *)
Theorem failed_message_leaves_cursor (b : Backend) (m : message)
    (st : RestrictedChannelForwarder.t) :
  should_forward_message st m = true →
  get_media_group_id (Some m) = None →
  (forward_message b st m).1 ≠ Ret true →
  let st' := (forward_one b m st).1 in
  last_message_id_ st' = last_message_id_ st ∧
  failed_count_ st' = failed_count_ st + 1 ∧
  forwarded_count_ st' = forwarded_count_ st ∧
  processed_media_groups_ st' = processed_media_groups_ st ∧
  ∀ history batch,
    get_new_messages (last_message_id_ st') (Answered history) = Ret batch →
    Some m ∈ history → last_message_id_ st' < id_ m → m ∈ batch.
Proof.
  intros Hfilter Hgroup Hfail. unfold forward_one. rewrite Hfilter, Hgroup. cbn [negb].
  destruct (forward_message b st m) as [[[| ]| |] events]; cbn in *;
    try done; repeat split; try done; intros; by eapply get_new_messages_elem.
Qed.

Lemma failed_message_leaves_cursor_witness :
  let st := Examples.forwarder Continuous 10 in
  let st' := (forward_one Examples.refusing (Examples.text 11 "hello") st).1 in
  last_message_id_ st' = last_message_id_ st ∧
  failed_count_ st' = failed_count_ st + 1 ∧
  forwarded_count_ st' = forwarded_count_ st ∧
  processed_media_groups_ st' = processed_media_groups_ st ∧
  ∀ history batch,
    get_new_messages (last_message_id_ st') (Answered history) = Ret batch →
    Some (Examples.text 11 "hello") ∈ history →
    last_message_id_ st' < id_ (Examples.text 11 "hello") →
    Examples.text 11 "hello" ∈ batch.
Proof.
  apply (failed_message_leaves_cursor Examples.refusing (Examples.text 11 "hello")
           (Examples.forwarder Continuous 10)).
  - reflexivity.
  - reflexivity.
  - discriminate.
Defined.

(** C2 as stated fails, in both its cases. The cursor is at 10 and the
    batch is the text message 11. First case: the backend answers the
    [sendMessage] with an error. Second case: the forwarder is configured
    for photos only, so the message fails the filter. In either case the
    cursor is still at 10 after the turn, and the next poll of the same
    history returns message 11 again. *)
Lemma unforwarded_message_not_passed :
  let m := Examples.text 11 "hello" in
  (let st := Examples.forwarder Continuous 10 in
   let c := Examples.cycle [Some m] (λ _, Examples.refusing) in
   should_forward_message st m = true ∧
   get_media_group_id (Some m) = None ∧
   (forward_message Examples.refusing st m).1 = Ret false ∧
   last_message_id_ (poll_cycle c st).1.1 = 10 ∧
   failed_count_ (poll_cycle c st).1.1 = 1 ∧
   get_new_messages (last_message_id_ (poll_cycle c st).1.1) (new_messages c)
     = Ret [m]) ∧
  (let st := Examples.photos_only 10 in
   let c := Examples.cycle [Some m] (λ _, Examples.obliging [Some m]) in
   should_forward_message st m = false ∧
   last_message_id_ (poll_cycle c st).1.1 = 10 ∧
   get_new_messages (last_message_id_ (poll_cycle c st).1.1) (new_messages c)
     = Ret [m]).
Proof. repeat split; vm_compute; reflexivity. Qed.

(** A message the filter rejects is skipped by the [continue] of line 217,
    which leaves the cursor where it was too. *)
Lemma filtered_message_leaves_cursor (b : Backend) (m : message)
    (st : RestrictedChannelForwarder.t) :
  should_forward_message st m = false → forward_one b m st = (st, []).
Proof. intros Hfilter. unfold forward_one. by rewrite Hfilter. Qed.

(** *** Media groups *)

Lemma of_group_elem (group_id : string) (history : MessageVector) (x : message) :
  x ∈ of_group group_id history → get_media_group_id (Some x) = Some group_id.
Proof.
  induction history as [|[y|] rest IH]; cbn [of_group].
  - intros Hin. by apply elem_of_nil in Hin.
  - destruct (decide (get_media_group_id (Some y) = Some group_id)) as [Hy|Hy]; [|done].
    intros [->|Hin]%elem_of_cons; [done|by apply IH].
  - done.
Qed.

Lemma get_media_group_messages_elem (group_id : string)
    (answer : QueryResult MessageVector) (members : list message) (x : message) :
  get_media_group_messages group_id answer = Ret members →
  x ∈ members → get_media_group_id (Some x) = Some group_id.
Proof.
  unfold get_media_group_messages. destruct answer as [history| |]; [|done|done].
  intros [= <-]. unfold sort_by_id. rewrite merge_sort_Permutation.
  apply of_group_elem.
Qed.













(** *** The set of processed albums *)


Lemma processed_subset_forward_one (b : Backend) (m : message)
    (st : RestrictedChannelForwarder.t) :
  processed_media_groups_ st ⊆ processed_media_groups_ (forward_one b m st).1.
Proof.
  unfold forward_one.
  repeat (case_match; cbn [fst snd processed_media_groups_ with_failed_count
                             with_last_message_id with_forwarded_count]);
    try done.
  match goal with
  | |- context [update_last_message_id ?ms ?st'] =>
      pose proof (update_last_message_id_spec ms st') as (_ & _ & -> & _)
  end.
  cbn. set_solver.
Qed.




(** *** Leaving the loop *)

(** No turn of the loop leaves it: the only jump out of the loop body would
    be that of line 283. *)
Lemma poll_cycle_never_leaves (c : Cycle) (st : RestrictedChannelForwarder.t) :
  (poll_cycle c st).2 ≠ left_loop.
Proof.
  unfold poll_cycle. destruct (get_new_messages _ _) as [messages| |]; [|done|done].
  destruct (if negb (is_nil messages) then _ else _) as [st1 events].
  unfold breaking. by destruct (_ && _).
Qed.

(** C8 at a failing input. In one-shot mode, with the cursor at 10, the
    first poll returns the text message 11, which is sent. The turn does
    not leave the loop: the thread sleeps and polls again. *)
Theorem one_time_mode_polls_again :
  let history := [Some (Examples.text 11 "hello")] in
  let st := Examples.forwarder OneTime 10 in
  let c := Examples.cycle history (λ _, Examples.obliging history) in
  mode (config_ st) = OneTime ∧
  get_new_messages (last_message_id_ st) (new_messages c)
    = Ret [Examples.text 11 "hello"] ∧
  (poll_cycle c st).2 = polling ∧
  (forward_worker [c; c] st).1.2 =
    [media_handler_start;
     poll st; query (sendMessage (-1002) (inputMessageText "hello")); sleep_for 1000;
     poll st; sleep_for 1000] ∧
  (forward_worker [c; c] st).2 = polling.
Proof. repeat split; vm_compute; reflexivity. Qed.

End ForwarderFacts.

(** ** More about the channel resolver *)

Module ResolverLaws.
Import ChannelResolver ResolverSpec LinkSpec.

Lemma append_String (c : ascii) (p s : string) :
  String c p +:+ s = String c (p +:+ s).
Proof. reflexivity. Qed.

Lemma append_empty (s : string) : "" +:+ s = s.
Proof. reflexivity. Qed.

Lemma append_empty_r (s : string) : s +:+ "" = s.
Proof. induction s as [|c s IH]; [done|]. rewrite append_String. by f_equal. Qed.

Lemma substring_prefix (p s : string) :
  substring 0 (String.length p) s = p → s = p +:+ string_drop (String.length p) s.
Proof.
  revert s. induction p as [|c p IH]; intros s; cbn [String.length].
  - done.
  - destruct s as [|d s]; cbn [substring string_drop]; [done|].
    intros [= -> Hrest]. rewrite append_String. f_equal. by apply IH.
Qed.

Lemma starts_with_prefix (p s : string) :
  starts_with p s = true → s = p +:+ string_drop (String.length p) s.
Proof. unfold starts_with. intros Heq%String.eqb_eq. by apply substring_prefix. Qed.

Lemma starts_with_app (p s : string) : starts_with p (p +:+ s) = true.
Proof.
  unfold starts_with. apply String.eqb_eq.
  induction p as [|c p IH].
  - rewrite append_empty. by destruct s.
  - rewrite append_String. cbn [String.length substring]. by rewrite IH.
Qed.

Lemma string_drop_app (p s : string) : string_drop (String.length p) (p +:+ s) = s.
Proof.
  induction p as [|c p IH]; [done|].
  rewrite append_String. cbn [String.length string_drop]. apply IH.
Qed.

Lemma take_username_spec (s : string) :
  ∃ after, s = take_username s +:+ after ∧
           username_chars (take_username s) ∧ ends_username after.
Proof.
  induction s as [|c s (after & Hs & Hchars & Hends)]; cbn [take_username].
  - exists "". split; [done|]. split; [constructor|done].
  - destruct (username_char c) eqn:Hc.
    + exists after. split; [rewrite append_String; by f_equal|].
      split; [by constructor|done].
    + exists (String c s). split; [done|]. split; [constructor|done].
Qed.

Lemma take_username_app (username rest : string) :
  username_chars username → ends_username rest →
  take_username (username +:+ rest) = username.
Proof.
  unfold username_chars. intros Hchars Hends.
  induction username as [|c u IH].
  - rewrite append_empty. destruct rest as [|d rest]; [done|].
    cbn in Hends. cbn [take_username]. by rewrite Hends.
  - cbn [list_ascii_of_string] in Hchars.
    inversion Hchars as [|? ? Hc Hu]; subst.
    rewrite append_String. cbn [take_username]. rewrite Hc. f_equal. by apply IH.
Qed.

Lemma extract_username_from_link_at_sound (whole link username : string) :
  extract_username_from_link_at whole link = Ret username →
  username ≠ "" ∧ username_chars username ∧
  ∃ before after,
    link = before +:+ "t.me/" +:+ username +:+ after ∧ ends_username after.
Proof.
  induction link as [|c link IH]; cbn [extract_username_from_link_at]; [done|].
  remember (string_drop 5 (String c link)) as tail eqn:Htail.
  destruct (starts_with "t.me/" (String c link)
            && negb (string_empty (take_username tail))) eqn:Hhere.
  - intros [= Husername]. apply andb_true_iff in Hhere as [Hprefix Hnonempty].
    apply starts_with_prefix in Hprefix.
    change (String.length "t.me/") with 5%nat in Hprefix. rewrite <- Htail in Hprefix.
    destruct (take_username_spec tail) as (after & Hsplit & Hchars & Hends).
    rewrite Husername in *.
    split; [intros ->; discriminate|]. split; [done|].
    exists "", after. split; [|done].
    rewrite append_empty, Hprefix. by rewrite Hsplit at 1.
  - intros (Hne & Hchars & before & after & -> & Hends)%IH.
    split; [done|]. split; [done|]. by exists (String c before), after.
Qed.

(** X1. What [extract_username_from_link] returns is a user name of the link:
    a non-empty run of characters other than the slash and white space,
    standing in the link right after "t.me/" and ending where the link ends
    or the next character is a slash or white space. *)
Theorem extract_username_from_link_sound (link username : string) :
  extract_username_from_link link = Ret username →
  username ≠ "" ∧ username_chars username ∧
  ∃ before after,
    link = before +:+ "t.me/" +:+ username +:+ after ∧ ends_username after.
Proof. apply extract_username_from_link_at_sound. Qed.

Lemma extract_username_from_link_sound_witness :
  "channel" ≠ "" ∧ username_chars "channel" ∧
  ∃ before after,
    "https://t.me/channel/42" = before +:+ "t.me/" +:+ "channel" +:+ after ∧
    ends_username after.
Proof.
  apply (extract_username_from_link_sound "https://t.me/channel/42" "channel").
  reflexivity.
Defined.

Lemma extract_skip (whole : string) (c : ascii) (link : string) :
  starts_with "t.me/" (String c link) = false →
  extract_username_from_link_at whole (String c link)
    = extract_username_from_link_at whole link.
Proof. intros Hno. cbn [extract_username_from_link_at]. by rewrite Hno. Qed.

Lemma extract_here (whole username rest : string) :
  username ≠ "" → username_chars username → ends_username rest →
  extract_username_from_link_at whole ("t.me/" +:+ username +:+ rest) = Ret username.
Proof.
  intros Hne Hchars Hends.
  change ("t.me/" +:+ username +:+ rest)
    with (String "t" (String "." (String "m" (String "e" (String "/"
            (username +:+ rest)))))).
  cbn [extract_username_from_link_at].
  change (string_drop 5 (String "t" (String "." (String "m" (String "e" (String "/"
            (username +:+ rest)))))))
    with (username +:+ rest).
  rewrite take_username_app by done.
  change (String "t" (String "." (String "m" (String "e" (String "/"
            (username +:+ rest))))))
    with ("t.me/" +:+ (username +:+ rest)).
  rewrite starts_with_app.
  by destruct username.
Qed.

(** X2. A link of the usual shape gives back its user name: for a scheme
    "https://", "http://" or none, a non-empty name free of slashes and
    white space, and a rest that is empty or begins with a slash or white
    space, [extract_username_from_link] returns the name. *)
Theorem extract_username_from_link_round_trip (scheme username rest : string) :
  scheme ∈ ["https://"; "http://"; ""] →
  username ≠ "" → username_chars username → ends_username rest →
  extract_username_from_link (scheme +:+ "t.me/" +:+ username +:+ rest)
    = Ret username.
Proof.
  intros Hscheme Hne Hchars Hends. unfold extract_username_from_link.
  generalize (scheme +:+ "t.me/" +:+ username +:+ rest) at 1. intros whole.
  pose proof (extract_here whole username rest Hne Hchars Hends) as Hhere.
  repeat (apply elem_of_cons in Hscheme as [->|Hscheme]);
    [..|by apply elem_of_nil in Hscheme];
    rewrite ?append_String, ?append_empty;
    repeat (rewrite extract_skip by reflexivity);
    exact Hhere.
Qed.

Lemma extract_username_from_link_round_trip_witness :
  extract_username_from_link ("https://" +:+ "t.me/" +:+ "some_channel" +:+ "/1024")
    = Ret "some_channel".
Proof.
  apply (extract_username_from_link_round_trip "https://" "some_channel" "/1024").
  - left.
  - discriminate.
  - unfold username_chars. cbn. repeat constructor.
  - reflexivity.
Defined.

(** X3. [is_valid_channel_id] accepts exactly the strings made of "-100"
    and at least one more character, all of them decimal digits. (A byte
    outside ASCII, on which [std::isdigit] is not defined, counts as no
    digit.) *)
Theorem is_valid_channel_id_iff (id_str : string) :
  is_valid_channel_id id_str = true ↔
  ∃ digits, id_str = "-100" +:+ digits ∧ digits ≠ "" ∧ all_digits digits = true.
Proof.
  split.
  - unfold is_valid_channel_id.
    destruct (string_empty id_str); [done|].
    destruct (String.eqb (substring 0 4 id_str) "-100") eqn:Hprefix; [|done].
    destruct (all_digits (string_drop 4 id_str)) eqn:Hdigits; [|done].
    cbn [negb]. intros Hlong%Nat.ltb_lt.
    apply String.eqb_eq, (substring_prefix "-100") in Hprefix.
    change (String.length "-100") with 4%nat in Hprefix.
    exists (string_drop 4 id_str). split; [done|]. split; [|done].
    intros Hnone. rewrite Hnone in Hprefix. rewrite Hprefix in Hlong.
    change (String.length ("-100" +:+ "")) with 4%nat in Hlong. lia.
  - intros (digits & -> & Hne & Hdigits).
    by apply ResolverFacts.is_valid_channel_id_prefixed.
Qed.

Lemma contains_app (needle before after : string) :
  contains needle (before +:+ needle +:+ after) = true.
Proof.
  induction before as [|c before IH].
  - rewrite append_empty.
    destruct (needle +:+ after) eqn:Hs; cbn [contains]; rewrite <- Hs;
      by rewrite starts_with_app.
  - rewrite append_String. cbn [contains]. rewrite IH. apply orb_true_r.
Qed.

Lemma username_chars_no_link (s : string) :
  username_chars s → contains "t.me/" s = false.
Proof.
  unfold username_chars.
  assert (Hhere : ∀ t, Forall (λ c, username_char c = true) (list_ascii_of_string t) →
                       starts_with "t.me/" t = false).
  { intros t Hchars. destruct (starts_with "t.me/" t) eqn:Hprefix; [|done].
    apply starts_with_prefix in Hprefix. rewrite Hprefix in Hchars.
    do 4 (apply Forall_cons in Hchars as [_ Hchars]).
    by apply Forall_cons in Hchars as [Hslash _]. }
  induction s as [|c s IH]; intros Hchars.
  - reflexivity.
  - cbn [contains]. rewrite (Hhere _ Hchars). cbn [orb].
    apply IH. by apply Forall_cons in Hchars as [_ Hchars].
Qed.

(** X4. The three spellings of a public channel lead to the same backend
    query: resolving the link "https://t.me/name", "@name" or the bare name,
    none of them cached, asks [searchPublicChat] for the name once and
    returns what that query gives. (The name is a user name: not empty, free
    of slashes and white space, not itself a channel id and not beginning
    with "@".) *)
Theorem three_spellings_one_query (searchPublicChat : string → QueryResult Z)
    (username : string) (cache : gmap string Z) :
  username ≠ "" → username_chars username →
  is_valid_channel_id username = false →
  (∀ rest, username ≠ String "@" rest) →
  Forall
    (λ identifier,
       cache !! identifier = None →
       returned (resolve_channel_sync searchPublicChat identifier cache)
         = get_chat_id_by_username searchPublicChat username ∧
       queried (resolve_channel_sync searchPublicChat identifier cache) = [username])
    ["https://t.me/" +:+ username; "@" +:+ username; username].
Proof.
  intros Hne Hchars Hinvalid Hbare.
  pose proof (username_chars_no_link username Hchars) as Hnolink.
  repeat apply Forall_cons_2; [| | |constructor]; intros Hmiss;
    unfold resolve_channel_sync; rewrite Hmiss.
  - assert (extract_username_from_link ("https://t.me/" +:+ username) = Ret username)
      as Hextract.
    { unfold extract_username_from_link.
      generalize ("https://t.me/" +:+ username) at 1. intros whole.
      rewrite !append_String, append_empty.
      repeat (rewrite extract_skip by reflexivity).
      pose proof (extract_here whole username "" Hne Hchars I) as Hhere.
      by rewrite append_empty_r in Hhere. }
    replace (is_valid_channel_id ("https://t.me/" +:+ username)) with false
      by reflexivity.
    replace (contains "t.me/" ("https://t.me/" +:+ username)) with true
      by (symmetry; apply (contains_app "t.me/" "https://" username)).
    rewrite Hextract. by destruct (get_chat_id_by_username searchPublicChat username).
  - replace (is_valid_channel_id ("@" +:+ username)) with false by reflexivity.
    replace (contains "t.me/" ("@" +:+ username)) with false
      by (rewrite append_String, append_empty; cbn [contains];
          by rewrite Hnolink).
    rewrite append_String, append_empty.
    by destruct (get_chat_id_by_username searchPublicChat username).
  - rewrite Hinvalid, Hnolink.
    destruct username as [|c rest]; [done|].
    assert (c ≠ "@"%char) as Hc by (intros ->; by eapply Hbare).
    assert (match String c rest with
            | String "@" rest0 => Ret rest0
            | _ => Ret (String c rest)
            end = @Ret string (String c rest)) as ->.
    { destruct c as [[] [] [] [] [] [] [] []]; try reflexivity. by destruct Hc. }
    by destruct (get_chat_id_by_username searchPublicChat (String c rest)).
Qed.

Lemma three_spellings_one_query_witness :
  let searchPublicChat := λ _ : string, Answered (-1001234567890) in
  Forall
    (λ identifier,
       (∅ : gmap string Z) !! identifier = None →
       returned (resolve_channel_sync searchPublicChat identifier ∅)
         = get_chat_id_by_username searchPublicChat "some_channel" ∧
       queried (resolve_channel_sync searchPublicChat identifier ∅) = ["some_channel"])
    ["https://t.me/" +:+ "some_channel"; "@" +:+ "some_channel"; "some_channel"].
Proof.
  intros searchPublicChat.
  apply (three_spellings_one_query searchPublicChat "some_channel" ∅).
  - discriminate.
  - unfold username_chars. cbn. repeat constructor.
  - reflexivity.
  - intros rest. discriminate.
Defined.

(** X5. A resolution that succeeded is remembered: resolving the same
    identifier again returns the same id from the cache, asks the backend
    nothing and leaves the cache as it is, whatever the backend would answer
    by then. *)
Theorem resolve_channel_sync_memoises (first again : string → QueryResult Z)
    (identifier : string) (cache : gmap string Z) (channel_id : Z) :
  returned (resolve_channel_sync first identifier cache) = Ret channel_id →
  resolve_channel_sync again identifier
    (channel_cache_ (resolve_channel_sync first identifier cache))
  = {| returned := Ret channel_id;
       channel_cache_ := channel_cache_ (resolve_channel_sync first identifier cache);
       queried := [] |}.
Proof.
  intros Hfirst.
  assert (channel_cache_ (resolve_channel_sync first identifier cache) !! identifier
          = Some channel_id) as Hcached.
  { revert Hfirst. unfold resolve_channel_sync.
    repeat (case_match; cbn [returned channel_cache_]); try done;
      intros [= ->]; try by rewrite lookup_insert_eq.
    done. }
  unfold resolve_channel_sync at 1. by rewrite Hcached.
Qed.

Lemma resolve_channel_sync_memoises_witness :
  let first := λ _ : string, Answered 77 in
  let again := λ _ : string, ErrorObject 400 "USERNAME_NOT_OCCUPIED" in
  resolve_channel_sync again "@some_channel"
    (channel_cache_ (resolve_channel_sync first "@some_channel" ∅))
  = {| returned := Ret 77;
       channel_cache_ := channel_cache_ (resolve_channel_sync first "@some_channel" ∅);
       queried := [] |}.
Proof.
  intros first again.
  apply (resolve_channel_sync_memoises first again "@some_channel" ∅ 77).
  reflexivity.
Defined.

(** X6. A resolution changes the cache in one way only: when it returns an
    id, that id is filed under the identifier (every other entry stays);
    when it throws, the cache is as before, so the identifier is resolved
    afresh the next time. It asks the backend at most one question. *)
Theorem resolve_channel_sync_cache (searchPublicChat : string → QueryResult Z)
    (identifier : string) (cache : gmap string Z) :
  channel_cache_ (resolve_channel_sync searchPublicChat identifier cache)
  = match returned (resolve_channel_sync searchPublicChat identifier cache) with
    | Ret channel_id => <[identifier := channel_id]> cache
    | _ => cache
    end ∧
  (length (queried (resolve_channel_sync searchPublicChat identifier cache)) ≤ 1)%nat.
Proof.
  unfold resolve_channel_sync.
  destruct (cache !! identifier) as [cached|] eqn:Hcache; cbn [returned channel_cache_ queried].
  { split; [by rewrite insert_id|cbn; lia]. }
  repeat (case_match; cbn [returned channel_cache_ queried length]);
    split; try done; lia.
Qed.

End ResolverLaws.

(** ** More about the client manager *)

Module GatewayLaws.
Import ClientManager DispatchSpec.

Section Dispatch.

Variable phone_number console_input : string.
Variable MessageContentType_Proxy : ObjectId.

Abbreviation handle_authorization_state :=
  (ClientManager.handle_authorization_state phone_number console_input).
Abbreviation process_response :=
  (ClientManager.process_response phone_number console_input MessageContentType_Proxy).
Abbreviation process_updates_step :=
  (ClientManager.process_updates_step phone_number console_input MessageContentType_Proxy).
Abbreviation process_updates :=
  (ClientManager.process_updates phone_number console_input MessageContentType_Proxy).
Abbreviation send_query :=
  (ClientManager.send_query phone_number console_input MessageContentType_Proxy).

Lemma set_state_law (state : ClientState) (cm : ClientManager.t) :
  dispatch_law cm (set_state state cm, Normal).
Proof.
  unfold set_state, dispatch_law, same_registration.
  repeat case_match; cbn; repeat split; try done;
    repeat constructor; intros; discriminate.
Qed.

Lemma handle_authorization_state_law (object : option AuthorizationState)
    (cm : ClientManager.t) :
  dispatch_law cm (handle_authorization_state object cm).
Proof.
  unfold ClientManager.handle_authorization_state, send_code, send_password, send_raw,
    send_query_async, set_state, dispatch_law, same_registration.
  repeat (case_match; simplify_eq; cbn in * ); repeat split; try done;
    repeat constructor; intros; discriminate.
Qed.

Lemma process_response_law (object : option Object) (cm : ClientManager.t) :
  dispatch_law cm (process_response object cm).
Proof.
  unfold ClientManager.process_response.
  destruct object as [o|]; [|by repeat split].
  destruct o; try apply handle_authorization_state_law;
    unfold deliver_update, after_callback_check, deliver_response, std_map.begin,
      dispatch_law, same_registration;
    repeat (case_match; simplify_eq; cbn in * ); repeat split; try done;
    repeat constructor; intros; simplify_eq; try done.
  by destruct (response_handlers_ cm); simplify_eq/=.
Qed.

Lemma process_updates_step_law (response : Response) (cm : ClientManager.t) :
  dispatch_law cm (process_updates_step response cm).
Proof.
  unfold ClientManager.process_updates_step.
  repeat case_match; try by repeat split.
  apply process_response_law.
Qed.

Lemma process_updates_law (responses : list Response) (cm : ClientManager.t) :
  dispatch_law cm (process_updates responses cm).
Proof.
  revert cm. induction responses as [|response rest IH]; intros cm;
    cbn [ClientManager.process_updates].
  { by repeat split. }
  destruct (running_ cm); [|by repeat split].
  pose proof (process_updates_step_law response cm) as Hstep.
  destruct (process_updates_step response cm) as [[cm1 e1] c1].
  destruct c1; [|done|done].
  specialize (IH cm1). destruct (process_updates rest cm1) as [[cm2 e2] c2].
  destruct Hstep as (Hcalls1 & Hok1 & Hu1 & Hc1 & Hr1).
  destruct IH as (Hcalls2 & Hok2 & Hu2 & Hc2 & Hr2). cbn [fst snd] in *.
  split; [|split; [|repeat split]]; cbn [fst snd].
  - unfold response_handlers_called in *. rewrite omap_app, <- app_assoc.
    by rewrite Hcalls2.
  - by apply Forall_app.
  - congruence.
  - congruence.
  - congruence.
Qed.

(** X7. The first [error] object the client receives ends the dispatch
    thread: [process_response] releases the object and then reads its id
    through the null pointer. No handler is called with it, and nothing that
    arrives later is dispatched. *)
Theorem error_object_ends_dispatch (code : Z) (message_ : string)
    (client request : Z) (later : list Response) (cm : ClientManager.t) :
  client_id_ cm = Some client →
  running_ cm = true →
  process_updates
    ({| client_id := client; request_id := request;
        object := Some (error code message_) |} :: later) cm
  = (cm, [], Crashed).
Proof.
  intros Hclient Hrunning. cbn [ClientManager.process_updates]. rewrite Hrunning.
  unfold ClientManager.process_updates_step. cbn [object client_id]. rewrite Hclient.
  rewrite decide_True by done.
  unfold ClientManager.process_response, after_callback_check. cbn [get_id].
  destruct (decide (error_ID = MessageContentType_Proxy)); [done|].
  by rewrite decide_True.
Qed.

(** X8. [send_query] never returns anything but the bare [ok] object: the
    dispatch gives a response handler only [ok] and [error] objects, and an
    [error] object does not reach it. *)
Theorem send_query_returns_only_ok (query : Function) (promise : nat)
    (inbound : list Response) (cm cm' : ClientManager.t) (response : Object)
    (effects : list Effect) :
  send_query query promise inbound cm = (Ret response, cm', effects) →
  response = ok.
Proof.
  unfold ClientManager.send_query.
  destruct (client_id_ cm); [|done].
  destruct (send_query_async query (Some (set_promise promise)) cm)
    as [[[query_id| |] cm1] sent]; [|done|done].
  pose proof (process_updates_law inbound cm1) as (_ & Hok & _).
  destruct (process_updates inbound cm1) as [[cm2 dispatched] [| |]]; [|done|done].
  cbn [fst snd] in Hok.
  destruct (promise_value promise dispatched) as [o|] eqn:Hvalue; [|done].
  intros [= <- _ _].
  induction dispatched as [|e rest IH]; [done|].
  apply Forall_cons in Hok as [He Hrest]. cbn [promise_value] in Hvalue.
  destruct e as [| q [p|] o' | |]; try by apply IH.
  destruct (decide (p = promise)); [|by apply IH].
  injection Hvalue as <-. by eapply He.
Qed.

(** X9. The dispatch thread calls the pending response handlers from the
    front: after any stream of responses, the handlers called, in the order
    of the calls, followed by the handlers still pending, are the handlers
    that were pending before. Each is called at most once, it registers no
    response handler, and it leaves the update handlers, the client id and
    the running flag alone. *)
Theorem handlers_called_from_the_front (responses : list Response)
    (cm : ClientManager.t) :
  response_handlers_called (process_updates responses cm).1.2
    ++ response_handlers_ (process_updates responses cm).1.1
  = response_handlers_ cm ∧
  same_registration cm (process_updates responses cm).1.1.
Proof.
  pose proof (process_updates_law responses cm) as (Hcalls & _ & Hsame). done.
Qed.

Lemma process_response_update_call (object : option Object) (cm : ClientManager.t) :
  Forall (λ e, ∀ handler o, e ≠ UpdateHandlerCalled handler o)
         (process_response object cm).1.2 ∨
  ∃ handler o,
    process_response object cm = (cm, [UpdateHandlerCalled handler o], Crashed) ∧
    update_handlers_ cm !! "updateNewMessage" = Some handler ∧
    get_id o = updateNewMessage_ID.
Proof.
  unfold ClientManager.process_response.
  destruct object as [o|]; [|left; constructor].
  destruct o as [auth| | |m|].
  - left. unfold ClientManager.handle_authorization_state, send_code, send_password,
      send_raw, send_query_async, set_state.
    repeat (case_match; simplify_eq; cbn in * ); repeat constructor; done.
  - left. unfold deliver_update, after_callback_check, deliver_response, std_map.begin.
    repeat (case_match; simplify_eq; cbn in * ); repeat constructor; done.
  - left. unfold deliver_update, after_callback_check, deliver_response, std_map.begin.
    repeat (case_match; simplify_eq; cbn in * ); repeat constructor; done.
  - unfold deliver_update, after_callback_check. cbn [get_id].
    destruct (decide (updateNewMessage_ID = MessageContentType_Proxy));
      [left; constructor|].
    rewrite decide_False by done. rewrite decide_True by done.
    destruct (update_handlers_ cm !! "updateNewMessage") as [handler|] eqn:Hhandler.
    + right. by exists handler, (updateNewMessage m).
    + left. unfold deliver_response, std_map.begin. cbn.
      repeat (case_match; simplify_eq; cbn in * ); repeat constructor; done.
  - left. unfold deliver_update, after_callback_check, deliver_response, std_map.begin.
    repeat (case_match; simplify_eq; cbn in * ); repeat constructor; done.
Qed.

(** X10. An update handler is called at most once in the life of the
    dispatch thread: the call moves the object out of the local pointer,
    which the next statement reads, so the call is the last thing the thread
    does and no update handler was called before it. The handler called is
    the one registered under "updateNewMessage", and the object a
    new-message update; a handler registered under any other type is never
    called. *)
Theorem update_handler_call_ends_dispatch (responses : list Response)
    (cm : ClientManager.t) (handler : UpdateHandler) (o : Object) :
  UpdateHandlerCalled handler o ∈ (process_updates responses cm).1.2 →
  (process_updates responses cm).2 = Crashed ∧
  (∃ before,
     (process_updates responses cm).1.2 = before ++ [UpdateHandlerCalled handler o] ∧
     Forall (λ e, ∀ handler' o', e ≠ UpdateHandlerCalled handler' o') before) ∧
  update_handlers_ cm !! "updateNewMessage" = Some handler ∧
  get_id o = updateNewMessage_ID.
Proof.
  revert cm. induction responses as [|response rest IH]; intros cm;
    cbn [ClientManager.process_updates].
  { intros Hin. by apply elem_of_nil in Hin. }
  destruct (running_ cm); [|intros Hin; by apply elem_of_nil in Hin].
  assert (Forall (λ e, ∀ handler o, e ≠ UpdateHandlerCalled handler o)
                 (process_updates_step response cm).1.2 ∨
          ∃ handler o,
            process_updates_step response cm
              = (cm, [UpdateHandlerCalled handler o], Crashed) ∧
            update_handlers_ cm !! "updateNewMessage" = Some handler ∧
            get_id o = updateNewMessage_ID) as Hstep.
  { unfold ClientManager.process_updates_step.
    repeat case_match; try (left; constructor).
    apply process_response_update_call. }
  pose proof (process_updates_step_law response cm) as (_ & _ & Hsame & _).
  destruct Hstep as [Hnone|(handler' & o' & -> & Hhandler & Hid)].
  - destruct (process_updates_step response cm) as [[cm1 e1] c1] eqn:Hone.
    cbn [fst snd] in Hnone.
    assert (∀ e2, UpdateHandlerCalled handler o ∈ e1 ++ e2 →
                  UpdateHandlerCalled handler o ∈ e2) as Hlater.
    { intros e2 [Hin|Hin]%elem_of_app; [|done].
      rewrite Forall_forall in Hnone. by destruct (Hnone _ Hin handler o). }
    destruct c1.
    + specialize (IH cm1).
      destruct (process_updates rest cm1) as [[cm2 e2] c2]. cbn [fst snd] in *.
      intros Hin%Hlater.
      destruct (IH Hin) as (Hc & (before & -> & Hbefore) & Hh & Hid).
      split; [done|]. split.
      * exists (e1 ++ before). split; [by rewrite app_assoc|by apply Forall_app].
      * split; [|done]. by rewrite <- Hsame.
    + cbn [fst snd]. intros Hin. specialize (Hlater []).
      rewrite app_nil_r in Hlater. by apply Hlater, elem_of_nil in Hin.
    + cbn [fst snd]. intros Hin. specialize (Hlater []).
      rewrite app_nil_r in Hlater. by apply Hlater, elem_of_nil in Hin.
  - cbn [fst snd]. intros [= <- <-]%list_elem_of_singleton.
    split; [done|]. split; [by exists []|done].
Qed.


End Dispatch.

Lemma error_object_ends_dispatch_witness :
  ClientManager.process_updates "" "" (other_ID 0)
    [Examples.answer_to 2 (error 400 "CHAT_ID_INVALID"); Examples.answer_to 1 ok]
    Examples.two_pending
  = (Examples.two_pending, [], Crashed).
Proof.
  apply (error_object_ends_dispatch "" "" (other_ID 0) 400 "CHAT_ID_INVALID" 1 2
           [Examples.answer_to 1 ok] Examples.two_pending).
  - reflexivity.
  - reflexivity.
Defined.

Lemma send_query_returns_only_ok_witness :
  ∃ response,
    (ClientManager.send_query "" "" (other_ID 0) (function "getMe") 0
       [Examples.answer_to 7 ok] Examples.quiet).1.1 = Ret response ∧
    response = ok.
Proof.
  eexists. split; [reflexivity|].
  eapply (send_query_returns_only_ok "" "" (other_ID 0) (function "getMe") 0
            [Examples.answer_to 7 ok] Examples.quiet).
  reflexivity.
Defined.

Lemma update_handler_call_ends_dispatch_witness :
  let cm :=
    register_update_handler "updateNewMessage" (Some (update_callback "on_message"))
      (register_update_handler "updateChatTitle" (Some (update_callback "on_title"))
         (unregister_update_handler "updateNewMessage"
            (register_update_handler "updateNewMessage" (Some (update_callback "old"))
               (clear_update_handlers Examples.two_pending)))) in
  let outcome :=
    ClientManager.process_updates "" "" (other_ID 0)
      [Examples.answer_to 0 (updateNewMessage (Some (Examples.text 5 "hello")));
       Examples.answer_to 1 ok] cm in
  outcome.2 = Crashed ∧
  (∃ before,
     outcome.1.2
       = before ++ [UpdateHandlerCalled (update_callback "on_message")
                      (updateNewMessage (Some (Examples.text 5 "hello")))] ∧
     Forall (λ e, ∀ handler' o', e ≠ UpdateHandlerCalled handler' o') before) ∧
  update_handlers_ cm !! "updateNewMessage" = Some (update_callback "on_message") ∧
  get_id (updateNewMessage (Some (Examples.text 5 "hello"))) = updateNewMessage_ID.
Proof.
  intros cm outcome.
  apply (update_handler_call_ends_dispatch "" "" (other_ID 0)).
  vm_compute. left.
Defined.


Lemma find_insert_or_assign {V : Type} (k : Z) (v : V) (m : list (Z * V)) :
  std_map.find k (std_map.insert_or_assign k v m) = Some v ∧
  ∀ other, other ≠ k →
    std_map.find other (std_map.insert_or_assign k v m) = std_map.find other m.
Proof.
  induction m as [|[k' v'] rest [IHeq IHne]]; cbn [std_map.insert_or_assign std_map.find].
  - rewrite Z.eqb_refl. split; [done|]. intros other Hother.
    by rewrite (proj2 (Z.eqb_neq k other)).
  - destruct (k <? k') eqn:Hlt; [|destruct (k =? k') eqn:Heq];
      cbn [std_map.find].
    + rewrite Z.eqb_refl. split; [done|]. intros other Hother.
      by rewrite (proj2 (Z.eqb_neq k other)).
    + rewrite Z.eqb_refl. split; [done|]. intros other Hother.
      apply Z.eqb_eq in Heq as <-.
      by rewrite !(proj2 (Z.eqb_neq k other)).
    + apply Z.eqb_neq in Heq. rewrite (proj2 (Z.eqb_neq k' k)) by done.
      split; [done|]. intros other Hother.
      destruct (k' =? other); [done|]. by apply IHne.
Qed.

(** X12. A request made with a handler is filed under the id it is sent
    with: [send_query_async] takes the next query id (the counter plus one,
    wrapping at 2^64), sends the request under it and returns it; looking
    the id up among the pending handlers gives the handler, and the handler
    of every other id is as before. *)
Theorem send_query_async_registers (query : Function) (handler : ResponseHandler)
    (cm : ClientManager.t) (client : Z) :
  client_id_ cm = Some client →
  ∃ cm',
    let query_id := (query_id_ cm + 1) mod UINT64_MODULUS in
    send_query_async query (Some handler) cm
      = (Ret query_id, cm', [Sent query_id query]) ∧
    query_id_ cm' = query_id ∧
    std_map.find query_id (response_handlers_ cm') = Some handler ∧
    ∀ other, other ≠ query_id →
      std_map.find other (response_handlers_ cm')
        = std_map.find other (response_handlers_ cm).
Proof.
  intros Hclient. unfold send_query_async. rewrite Hclient.
  eexists. cbn zeta. split; [reflexivity|]. cbn.
  split; [done|]. apply find_insert_or_assign.
Qed.

Lemma send_query_async_registers_witness :
  let cm := init 1 new in
  ∃ cm',
    send_query_async (function "getMe") (Some (callback "first")) cm
      = (Ret 1, cm', [Sent 1 (function "getMe")]) ∧
    query_id_ cm' = 1 ∧
    std_map.find 1 (response_handlers_ cm') = Some (callback "first") ∧
    ∀ other, other ≠ 1 →
      std_map.find other (response_handlers_ cm')
        = std_map.find other (response_handlers_ cm).
Proof.
  intros cm.
  apply (send_query_async_registers (function "getMe") (callback "first") cm 1).
  reflexivity.
Defined.

(** X13. [stop] on a running manager drops everything: the client id, both
    handler maps (no pending handler is called) and the running flag; the
    state is [Closed]. From then on a request throws the error
    "客户端未初始化" (client not initialised) without being sent, the
    dispatch does nothing, and a second [stop] changes nothing. *)
Theorem stop_drops_everything (phone_number console_input : string)
    (MessageContentType_Proxy : ObjectId) (cm : ClientManager.t) :
  running_ cm = true →
  let stopped := (stop cm).1 in
  client_id_ stopped = None ∧
  running_ stopped = false ∧
  state_ stopped = Closed ∧
  response_handlers_ stopped = [] ∧
  update_handlers_ stopped = ∅ ∧
  Forall (λ e, delivered e = None) (stop cm).2 ∧
  stop stopped = (stopped, []) ∧
  (∀ query handler,
     send_query_async query handler stopped
       = (Throw (runtime_error "客户端未初始化"), stopped, [])) ∧
  (∀ query promise inbound,
     ClientManager.send_query phone_number console_input MessageContentType_Proxy
       query promise inbound stopped
       = (Throw (runtime_error "客户端未初始化"), stopped, [])) ∧
  (∀ responses,
     ClientManager.process_updates phone_number console_input
       MessageContentType_Proxy responses stopped = (stopped, [], Normal)).
Proof.
  intros Hrunning. unfold stop, set_state. rewrite Hrunning. cbn [negb state_].
  destruct (decide (state_ cm = Closed)); cbn;
    repeat split; try done; try (by repeat constructor);
    intros [|response rest]; done.
Qed.

Lemma stop_drops_everything_witness :
  let stopped := (stop Examples.two_pending).1 in
  client_id_ stopped = None ∧
  running_ stopped = false ∧
  state_ stopped = Closed ∧
  response_handlers_ stopped = [] ∧
  update_handlers_ stopped = ∅ ∧
  Forall (λ e, delivered e = None) (stop Examples.two_pending).2 ∧
  stop stopped = (stopped, []) ∧
  (∀ query handler,
     send_query_async query handler stopped
       = (Throw (runtime_error "客户端未初始化"), stopped, [])) ∧
  (∀ query promise inbound,
     ClientManager.send_query "" "" (other_ID 0) query promise inbound stopped
       = (Throw (runtime_error "客户端未初始化"), stopped, [])) ∧
  (∀ responses,
     ClientManager.process_updates "" "" (other_ID 0) responses stopped
       = (stopped, [], Normal)).
Proof.
  apply (stop_drops_everything "" "" (other_ID 0) Examples.two_pending).
  reflexivity.
Defined.

End GatewayLaws.

(** ** More about media tasks and the media handler *)

Module TaskLaws.
Import MediaHandler TaskSpec.

Lemma count_ended (tasks : list MediaTask.t) :
  (length (filter (λ task, MediaTask.state_ task = Completed) tasks)
   + length (filter (λ task, MediaTask.state_ task = Failed) tasks)
   ≤ length tasks)%nat ∧
  ((length (filter (λ task, MediaTask.state_ task = Completed) tasks)
    + length (filter (λ task, MediaTask.state_ task = Failed) tasks)
    = length tasks)%nat ↔ Forall ended tasks).
Proof.
  induction tasks as [|task rest [IHle IHiff]].
  - split; [done|]. split; [constructor|done].
  - rewrite !filter_cons, Forall_cons. unfold ended at 1.
    destruct (MediaTask.state_ task);
      repeat (case_decide; try done); cbn [length];
      (split; [lia|]);
      (split;
       [intros Heq; first [lia | split; [tauto|apply IHiff; lia]]
       |intros [Hhead Hrest%IHiff]; first [lia | by destruct Hhead]]).
Qed.

(** X14. A group task is completed exactly when every task in it has ended,
    as [Completed] or as [Failed]; tasks in any other state ([Pending],
    [Processing], [Cancelled]) keep it incomplete. The two counters never
    add up to more than the number of tasks. *)
Theorem is_completed_iff (g : MediaGroupTask.t) :
  (MediaGroupTask.is_completed g = true ↔ Forall ended (MediaGroupTask.tasks_ g)) ∧
  (MediaGroupTask.completed_count g + MediaGroupTask.failed_count g
   ≤ length (MediaGroupTask.tasks_ g))%nat.
Proof.
  unfold MediaGroupTask.is_completed, MediaGroupTask.completed_count,
    MediaGroupTask.failed_count, MediaGroupTask.count_state.
  destruct (count_ended (MediaGroupTask.tasks_ g)) as [Hle Hiff].
  split; [|done]. rewrite bool_decide_eq_true. done.
Qed.

Lemma set_progress_in_range (progress : Z) (task : MediaTask.t) :
  progress_in_range (MediaTask.set_progress progress task).
Proof. unfold progress_in_range. cbn. lia. Qed.

Lemma total_progress_bounded (tasks : list MediaTask.t) (total : Z) :
  Forall progress_in_range tasks →
  0 ≤ total →
  total + 100 * Z.of_nat (length tasks) ≤ MediaGroupTask.INT_MAX →
  ∃ sum, MediaGroupTask.total_progress total tasks = Ret sum ∧
         total ≤ sum ≤ total + 100 * Z.of_nat (length tasks).
Proof.
  intros Hrange. revert total.
  induction Hrange as [|task rest [Hlo Hhi] _ IH]; intros total Hpos Hfits.
  - exists total. cbn. split; [done|lia].
  - cbn [MediaGroupTask.total_progress length] in *.
    unfold MediaGroupTask.INT_MIN, MediaGroupTask.INT_MAX in *.
    rewrite andb_true_intro by (split; apply Z.leb_le; lia).
    destruct (IH (total + MediaTask.progress_ task)) as (sum & -> & Hsum); [lia..|].
    exists sum. split; [done|lia].
Qed.

(** X15. [overall_progress] is a percentage: for a group whose tasks all
    have a progress between 0 and 100 (the range [set_progress] clamps to),
    and few enough for the [int] sum not to overflow, it returns a value
    between 0 and 100; for a group without tasks it returns 0. *)
Theorem overall_progress_is_a_percentage (g : MediaGroupTask.t) :
  Forall progress_in_range (MediaGroupTask.tasks_ g) →
  100 * Z.of_nat (length (MediaGroupTask.tasks_ g)) ≤ MediaGroupTask.INT_MAX →
  ∃ percent, MediaGroupTask.overall_progress g = Ret percent ∧ 0 ≤ percent ≤ 100 ∧
             (MediaGroupTask.tasks_ g = [] → percent = 0).
Proof.
  intros Hrange Hfits. unfold MediaGroupTask.overall_progress.
  destruct (MediaGroupTask.tasks_ g) as [|task rest] eqn:Htasks.
  { exists 0. split; [done|]. split; [lia|done]. }
  destruct (total_progress_bounded (task :: rest) 0 Hrange) as (sum & -> & Hsum);
    [lia|lia|].
  exists (sum ÷ Z.of_nat (length (task :: rest))).
  split; [done|]. split; [|done].
  set (n := Z.of_nat (length (task :: rest))) in *.
  assert (0 < n) by (subst n; cbn [length]; lia).
  rewrite Z.quot_div_nonneg by lia. split.
  - apply Z.div_pos; lia.
  - apply Z.div_le_upper_bound; lia.
Qed.

Lemma overall_progress_is_a_percentage_witness :
  let task := MediaTask.new Download (Examples.photo 1 "a") in
  let g := {| MediaGroupTask.id_ := "a";
              MediaGroupTask.tasks_ :=
                [MediaTask.set_progress 250 task; MediaTask.set_progress (-3) task;
                 MediaTask.set_progress 51 task] |} in
  ∃ percent, MediaGroupTask.overall_progress g = Ret percent ∧ 0 ≤ percent ≤ 100 ∧
             (MediaGroupTask.tasks_ g = [] → percent = 0).
Proof.
  intros task g.
  apply (overall_progress_is_a_percentage g).
  - repeat constructor; apply set_progress_in_range.
  - vm_compute. discriminate.
Defined.

Lemma album_contents_later (caption : string) (i : nat) (tasks : list MediaTask.t) :
  Forall (λ content, caption_on content = None)
         (album_contents caption (S i) tasks).
Proof.
  revert i. induction tasks as [|task rest IH]; intros i; cbn [album_contents].
  - constructor.
  - rewrite bool_decide_eq_false_2 by done. cbn [andb].
    destruct (get_media_type _); try apply IH; by constructor.
Qed.

Lemma album_contents_length (caption : string) (i : nat) (tasks : list MediaTask.t) :
  length (album_contents caption i tasks) = length (filter (λ task, album_kind task = true) tasks).
Proof.
  revert i. induction tasks as [|task rest IH]; intros i; cbn [album_contents].
  - done.
  - rewrite filter_cons.
    destruct (decide (album_kind task = true)) as [Hkind|Hkind];
      unfold album_kind in Hkind;
      destruct (get_media_type _); try done; cbn [length]; by rewrite IH.
Qed.

Lemma group_caption_head (tasks : list MediaTask.t) :
  group_caption tasks
  = default "" (head (filter (λ caption, caption ≠ "") (caption_of_task <$> tasks))).
Proof.
  induction tasks as [|task rest IH]; [done|].
  cbn [group_caption fmap list_fmap]. rewrite filter_cons.
  fold (caption_of_task task).
  destruct (caption_of_task task) eqn:Hcaption; cbn [string_empty negb].
  - rewrite decide_False by (intros Hne; by apply Hne). apply IH.
  - by rewrite decide_True.
Qed.

(** X16. The request [upload_media_group] sends for a group with tasks is
    one [sendMessageAlbum] to the given chat. It holds one item for each
    photo, video and document task and none for a task of another type. The
    caption of the group is the first non-empty caption among its tasks;
    only the first item can carry it, and only if the first task is a photo,
    a video or a document. *)
Theorem album_request_shape (chat_id : Z) (group_task : MediaGroupTask.t)
    (answer : QueryResult MessageVector) :
  MediaGroupTask.tasks_ group_task ≠ [] →
  let tasks := MediaGroupTask.tasks_ group_task in
  let caption :=
    default "" (head (filter (λ caption, caption ≠ "") (caption_of_task <$> tasks))) in
  ∃ contents,
    (upload_media_group_get chat_id group_task answer).2
      = [sendMessageAlbum chat_id contents] ∧
    length contents = length (filter (λ task, album_kind task = true) tasks) ∧
    ∀ i content text,
      contents !! i = Some content → caption_on content = Some text →
      i = 0%nat ∧ text = caption ∧ caption ≠ "" ∧
      ∃ first, head tasks = Some first ∧ album_kind first = true.
Proof.
  intros Hne. cbv zeta. unfold upload_media_group_get.
  rewrite (group_caption_head (MediaGroupTask.tasks_ group_task)).
  destruct (MediaGroupTask.tasks_ group_task) as [|first rest]; [done|].
  set (tasks := first :: rest).
  set (caption := default "" (head (filter _ (caption_of_task <$> tasks)))).
  exists (album_contents caption 0 tasks). split; [by destruct answer|].
  split; [apply album_contents_length|].
  intros i content text Hi Hcaption. subst tasks.
  cbn [album_contents] in Hi. rewrite bool_decide_eq_true_2 in Hi by done.
  cbn [andb] in Hi.
  pose proof (album_contents_later caption 0 rest) as Hlater.
  rewrite Forall_forall in Hlater.
  assert (∀ j, album_contents caption 1 rest !! j = Some content → False) as Hrest.
  { intros j Hj%list_elem_of_lookup_2%Hlater. congruence. }
  destruct (get_media_type (Some (MediaTask.message_ first))) eqn:Hkind;
    try (exfalso; exact (Hrest i Hi)).
  all: destruct i as [|i]; [|exfalso; exact (Hrest i Hi)].
  all: injection Hi as <-; cbn [caption_on] in Hcaption.
  all: destruct (string_empty caption) eqn:Hempty; cbn [negb] in Hcaption; [done|].
  all: injection Hcaption as <-.
  all: split; [done|]; split; [done|].
  all: split; [intros Hnone; by rewrite Hnone in Hempty|].
  all: exists first; split; [done|]; unfold album_kind; by rewrite Hkind.
Qed.

Lemma album_request_shape_witness :
  let tasks := Examples.downloaded_album in
  let caption :=
    default "" (head (filter (λ caption, caption ≠ "") (caption_of_task <$> tasks))) in
  ∃ contents,
    (upload_media_group_get 7 {| MediaGroupTask.id_ := "a";
                                 MediaGroupTask.tasks_ := tasks |} NoResponse).2
      = [sendMessageAlbum 7 contents] ∧
    length contents = length (filter (λ task, album_kind task = true) tasks) ∧
    ∀ i content text,
      contents !! i = Some content → caption_on content = Some text →
      i = 0%nat ∧ text = caption ∧ caption ≠ "" ∧
      ∃ first, head tasks = Some first ∧ album_kind first = true.
Proof.
  apply (album_request_shape 7 {| MediaGroupTask.id_ := "a";
                                  MediaGroupTask.tasks_ := Examples.downloaded_album |}
           NoResponse).
  discriminate.
Defined.

End TaskLaws.

Module HandlerLaws.
Import MediaHandler MediaSpec TaskSpec.

(** X17. A group download of messages whose first has an album id queues
    one new [Pending] download task per message, in the order of the
    messages and behind what was queued already, each with a promise of its
    own; the thread it detaches waits for exactly these promises, in that
    order, to fill a group task named after the album of the first message.
    Nothing else in the handler changes. *)
Theorem download_media_group_enqueues (first : message) (rest : list message)
    (group_id : string) (h : MediaHandler.t) :
  get_media_group_id (Some first) = Some group_id →
  let messages := first :: rest in
  ∃ j h',
    download_media_group (Some <$> messages) h = Ret (set_by j, h') ∧
    download_queue_ h'
      = download_queue_ h
          ++ imap (λ i m, (MediaTask.new Download m, (next_promise_ h + i)%nat)) messages ∧
    next_promise_ h' = (next_promise_ h + length messages)%nat ∧
    futures_ j = seq (next_promise_ h) (length messages) ∧
    group_task_ j = MediaGroupTask.new group_id ∧
    group_promise_ j = None ∧
    running_ h' = running_ h ∧
    downloading_ h' = downloading_ h ∧
    promises_ h' = promises_ h ∧
    active_downloads_ h' = active_downloads_ h.
Proof.
  intros Hid messages. subst messages. unfold download_media_group.
  cbn [fmap list_fmap]. rewrite Hid.
  change (Some first :: (Some <$> rest)) with (Some <$> first :: rest).
  rewrite MediaFacts.non_null_Some, (MediaFacts.download_each_spec (first :: rest) h).
  eexists _, _. split; [reflexivity|]. by cbn.
Qed.

Lemma download_media_group_enqueues_witness :
  let messages := Examples.album in
  let h := Examples.started in
  ∃ j h',
    download_media_group (Some <$> messages) h = Ret (set_by j, h') ∧
    download_queue_ h'
      = download_queue_ h
          ++ imap (λ i m, (MediaTask.new Download m, (next_promise_ h + i)%nat)) messages ∧
    next_promise_ h' = (next_promise_ h + length messages)%nat ∧
    futures_ j = seq (next_promise_ h) (length messages) ∧
    group_task_ j = MediaGroupTask.new "a" ∧
    group_promise_ j = None ∧
    running_ h' = running_ h ∧
    downloading_ h' = downloading_ h ∧
    promises_ h' = promises_ h ∧
    active_downloads_ h' = active_downloads_ h.
Proof.
  apply (download_media_group_enqueues (Examples.photo 1 "a")
           [Examples.photo 2 "a"; Examples.photo 3 "a"] "a" Examples.started).
  reflexivity.
Defined.

Section Engine.

Variable download_file : MediaTask.t → DownloadResult.





Lemma stopped_run (schedule : list Action) (h : MediaHandler.t) (j : Joiner)
    (future : nat) (rest : list nat) :
  running_ h = false → downloading_ h = ∅ →
  futures_ j = future :: rest → promises_ h !! future = None →
  group_promise_ j = None →
  run download_file schedule (h, j) = (h, j).
Proof.
  intros Hstopped Hnone Hfutures Hunset Hgroup. unfold run.
  induction schedule as [|a schedule IH]; [done|].
  cbn [fold_left]. rewrite <- IH at 2. f_equal.
  destruct a as [w|w|]; cbn [step fst snd].
  - unfold take_from_queue. by rewrite Hstopped.
  - unfold finish_download. by rewrite Hnone, lookup_empty.
  - unfold join. by rewrite Hgroup, Hfutures, Hunset.
Qed.

(** X19. A handler that is not running serves nothing: a group download
    requested from a stopped handler that holds no task queues its tasks,
    but no interleaving of the threads ever changes the handler or lets the
    detached thread set the promise of the group. [download_media] does not
    look at the running flag, so the caller of [get()] waits for good. *)
Theorem stopped_handler_never_resolves (messages : list message)
    (h h1 : MediaHandler.t) (j : Joiner) (schedule : list Action) :
  running_ h = false → downloading_ h = ∅ → fresh_promises h →
  download_media_group (Some <$> messages) h = Ret (set_by j, h1) →
  run download_file schedule (h1, j) = (h1, j) ∧
  group_promise_ (run download_file schedule (h1, j)).2 = None ∧
  length (download_queue_ (run download_file schedule (h1, j)).1)
    = (length (download_queue_ h) + length messages)%nat.
Proof.
  intros Hstopped Hnone (_ & _ & Hfresh) Hcall.
  destruct (MediaFacts.download_media_group_joiner messages h h1 j Hcall)
    as (first & group_id & Hfirst & _ & -> & ->).
  rewrite (MediaFacts.download_each_spec messages h) in *. cbn [fst snd] in *.
  destruct messages as [|m rest]; [done|].
  rewrite (stopped_run schedule _ _ (next_promise_ h)
             (seq (S (next_promise_ h)) (length rest))); try done.
  - cbn [fst snd group_promise_]. split; [done|]. split; [done|].
    cbn [with_queue download_queue_]. rewrite length_app, length_imap. done.
  - cbn. destruct (promises_ h !! next_promise_ h) as [task|] eqn:Hset; [|done].
    apply Hfresh in Hset. lia.
Qed.

End Engine.


Lemma stopped_handler_never_resolves_witness :
  let h := Examples.stopped in
  ∃ j h1,
    download_media_group (Some <$> Examples.album) h = Ret (set_by j, h1) ∧
    run Examples.second_fails Examples.out_of_order (h1, j) = (h1, j) ∧
    group_promise_ (run Examples.second_fails Examples.out_of_order (h1, j)).2 = None ∧
    length (download_queue_ (run Examples.second_fails Examples.out_of_order (h1, j)).1)
      = (length (download_queue_ h) + length Examples.album)%nat.
Proof.
  intros h. eexists _, _. split; [reflexivity|].
  eapply (stopped_handler_never_resolves Examples.second_fails Examples.album h).
  - reflexivity.
  - reflexivity.
  - repeat split; intros *; vm_compute; intros Hin.
    + by apply elem_of_nil in Hin.
    + done.
    + done.
  - reflexivity.
Defined.

End HandlerLaws.

(** ** More about the helpers of [utils.cpp] *)

Module UtilsLaws.
Import UtilsSpec.

Lemma pretty_N_go_no_underscore (x : N) (s : string) :
  no_underscore s → no_underscore (pretty_N_go x s).
Proof.
  revert s. induction (N.lt_wf_0 x) as [x _ IH]; intros s Hs.
  destruct (decide (x = 0)%N) as [->|Hpos].
  - by rewrite pretty_N_go_0.
  - rewrite pretty_N_go_step by lia. apply IH.
    + apply N.div_lt; lia.
    + constructor; [|done]. unfold pretty_N_char. by repeat case_match.
Qed.

Lemma pretty_Z_no_underscore (x : Z) : no_underscore (pretty x).
Proof.
  assert (∀ p : positive, no_underscore (pretty p)) as Hpos.
  { intros p. unfold pretty, pretty_positive, pretty, pretty_N.
    case_decide; [repeat constructor; done|].
    apply pretty_N_go_no_underscore. constructor. }
  destruct x as [|p|p]; unfold pretty, pretty_Z.
  - repeat constructor; done.
  - apply Hpos.
  - constructor; [done|]. apply Hpos.
Qed.

Lemma split_at_underscore (a a' b b' : string) :
  no_underscore a → no_underscore a' →
  a +:+ "_" +:+ b = a' +:+ "_" +:+ b' → a = a' ∧ b = b'.
Proof.
  unfold no_underscore. revert a'.
  induction a as [|c a IH]; intros [|c' a'] Ha Ha'; cbn [list_ascii_of_string] in *;
    rewrite ?ResolverLaws.append_String, ?ResolverLaws.append_empty,
      ?ResolverLaws.append_String.
  - intros [= ->]. done.
  - intros [= <- _]. by apply Forall_cons in Ha' as [? _].
  - intros [= -> _]. by apply Forall_cons in Ha as [? _].
  - intros [= -> Hrest].
    apply Forall_cons in Ha as [_ Ha]. apply Forall_cons in Ha' as [_ Ha'].
    destruct (IH a' Ha Ha' Hrest) as [-> ->]. done.
Qed.

(** X20. [generate_message_id] names a message uniquely: two ids are equal
    exactly when both the chat ids and the message ids are equal, so two
    media tasks have the same id exactly when they are made for the same
    message of the same chat. *)
Theorem generate_message_id_unique (chat message other_chat other_message : Z) :
  (generate_message_id chat message = generate_message_id other_chat other_message
   ↔ chat = other_chat ∧ message = other_message) ∧
  ∀ type type' (m m' : td_api.message),
    MediaTask.id_ (MediaTask.new type m) = MediaTask.id_ (MediaTask.new type' m')
    ↔ chat_id_ m = chat_id_ m' ∧ id_ m = id_ m'.
Proof.
  assert (∀ c m c' m', generate_message_id c m = generate_message_id c' m'
                       ↔ c = c' ∧ m = m') as Hunique.
  { intros c m c' m'. split; [|by intros [-> ->]].
    unfold generate_message_id. intros Heq.
    apply split_at_underscore in Heq as [Hc Hm];
      [|apply pretty_Z_no_underscore..].
    split; by apply (inj pretty). }
  split; [apply Hunique|]. intros type type' m m'. cbn [MediaTask.new MediaTask.id_].
  apply Hunique.
Qed.

End UtilsLaws.

(** ** More about the forwarder *)

Module ForwarderLaws.
Import MediaHandler RestrictedChannelForwarder TraceSpec.

Ltac solve_law :=
  first [done | lia | by left | by repeat constructor].

Lemma forward_message_law (b : Backend) (st : RestrictedChannelForwarder.t)
    (m : message) :
  Forall (addressed st) (forward_message b st m).2 ∧
  ((forward_message b st m).1 = Ret true →
   Exists ForwarderSpec.sends (forward_message b st m).2).
Proof.
  unfold forward_message, forward_text_message, forward_media_message,
    upload_media_get, send_media_by_type.
  repeat (case_match; simplify_eq; cbn [fst snd map]);
    (split; [repeat constructor|]); try done;
    intros _; repeat first [by apply Exists_cons_hd | apply Exists_cons_tl].
Qed.

Lemma forward_media_group_law (b : Backend) (st : RestrictedChannelForwarder.t)
    (messages : list message) :
  Forall (addressed st) (forward_media_group b st messages).2 ∧
  ((forward_media_group b st messages).1 = true →
   Exists ForwarderSpec.sends (forward_media_group b st messages).2).
Proof.
  assert (Forall (addressed st) (map download messages)) as Hdownloads.
  { apply Forall_forall. intros e (m & <- & _)%list_elem_of_In%in_map_iff. done. }
  unfold forward_media_group.
  destruct (download_media_group_get (download_file b) messages) as [group_task|];
    [|by split; [constructor|]].
  cbn zeta. destruct (bool_decide _); [by split|].
  unfold upload_media_group_get.
  destruct (MediaGroupTask.tasks_ group_task) as [|task tasks].
  { cbn [fst snd map]. rewrite app_nil_r. by split. }
  destruct (album_sent b) as [[|sent rest]| |]; cbn [fst snd map].
  all: split; [apply Forall_app; split; [done|by repeat constructor]|]; try done.
  intros _. apply Exists_app. right. by apply Exists_cons_hd.
Qed.

Lemma update_last_message_id_chats (messages : list message)
    (st : RestrictedChannelForwarder.t) :
  target_chat_id_ (update_last_message_id messages st) = target_chat_id_ st.
Proof.
  revert st. induction messages as [|m rest IH]; intros st; [done|].
  cbn [update_last_message_id fold_left]. unfold update_last_message_id in IH.
  by rewrite IH.
Qed.

Lemma forwarding_law_refl (st : RestrictedChannelForwarder.t) :
  forwarding_law st st [].
Proof. unfold forwarding_law. split_and!; solve_law. Qed.

Lemma forward_one_law (b : Backend) (m : message) (st : RestrictedChannelForwarder.t) :
  forwarding_law st (forward_one b m st).1 (forward_one b m st).2.
Proof.
  unfold forward_one.
  destruct (should_forward_message st m); cbn [negb];
    [|apply forwarding_law_refl].
  destruct (get_media_group_id (Some m)) as [group_id|].
  - destruct (media_group_processed group_id st); cbn [negb fst snd];
      [by unfold forwarding_law; cbn; split_and!; solve_law|].
    destruct (get_media_group_messages group_id (group_history b))
      as [[|first rest]| |]; cbn [fst snd];
      try (by unfold forwarding_law; cbn; split_and!; solve_law).
    destruct (forward_media_group_law b st (first :: rest)) as [Haddressed Hsends].
    unfold forwarding_law.
    destruct (forward_media_group b st (first :: rest)) as [[|] events];
      cbn [fst snd] in *.
    + pose proof (ForwarderFacts.update_last_message_id_spec (first :: rest)
                    (with_processed_media_groups
                       (with_forwarded_count st
                          (forwarded_count_ st + Z.of_nat (length (first :: rest))))
                       ({[group_id]} ∪ processed_media_groups_
                          (with_forwarded_count st
                             (forwarded_count_ st + Z.of_nat (length (first :: rest)))))))
        as (_ & _ & _ & _ & Hforwarded & Hfailed & _ & _ & _ & Hsource).
      cbn zeta in Hforwarded, Hfailed, Hsource.
      rewrite update_last_message_id_chats, Hforwarded, Hfailed, Hsource.
      cbn. split_and!; try solve_law; try (by constructor).
      right. apply Exists_cons_tl. by apply Hsends.
    + cbn. split_and!; try solve_law; by constructor.
  - destruct (forward_message_law b st m) as [Haddressed Hsends].
    unfold forwarding_law.
    destruct (forward_message b st m) as [[[|]| |] events]; cbn [fst snd] in *;
      cbn; split_and!; try solve_law.
    right. by apply Hsends.
Qed.

Lemma addressed_same (st st' : RestrictedChannelForwarder.t) (events : list Event) :
  source_chat_id_ st' = source_chat_id_ st →
  target_chat_id_ st' = target_chat_id_ st →
  Forall (addressed st') events → Forall (addressed st) events.
Proof.
  intros Hsource Htarget Haddressed. eapply Forall_impl; [exact Haddressed|].
  intros e. unfold addressed. by rewrite Hsource, Htarget.
Qed.

Lemma forwarding_law_app (st st1 st2 : RestrictedChannelForwarder.t)
    (e1 e2 : list Event) :
  forwarding_law st st1 e1 → forwarding_law st1 st2 e2 →
  forwarding_law st st2 (e1 ++ e2).
Proof.
  intros (Ha1 & Hs1 & Ht1 & Hf1 & Hx1 & Hsent1) (Ha2 & Hs2 & Ht2 & Hf2 & Hx2 & Hsent2).
  unfold forwarding_law. repeat split; try congruence; try lia.
  - apply Forall_app. split; [done|]. by apply (addressed_same st st1).
  - destruct Hsent2 as [Hsame2|Hsent2]; [|right; apply Exists_app; by right].
    destruct Hsent1 as [Hsame1|Hsent1]; [left; congruence|].
    right. apply Exists_app. by left.
Qed.

Lemma forward_batch_law (backend : nat → Backend) (i : nat) (messages : list message)
    (st : RestrictedChannelForwarder.t) :
  forwarding_law st (forward_batch backend i messages st).1
    (forward_batch backend i messages st).2.
Proof.
  revert i st. induction messages as [|m rest IH]; intros i st.
  - apply forwarding_law_refl.
  - cbn [forward_batch].
    pose proof (forward_one_law (backend i) m st) as Hone.
    destruct (forward_one (backend i) m st) as [st1 e1].
    specialize (IH (S i) st1).
    destruct (forward_batch backend (S i) rest st1) as [st2 e2].
    by eapply forwarding_law_app.
Qed.

Lemma forwarding_law_quiet (st st' : RestrictedChannelForwarder.t)
    (before events after : list Event) :
  forwarding_law st st' events →
  Forall (addressed st) before → Forall (addressed st) after →
  forwarding_law st st' (before ++ events ++ after).
Proof.
  intros (Ha & Hs & Ht & Hf & Hx & Hsent) Hbefore Hafter.
  unfold forwarding_law. repeat split; try done.
  - by repeat (apply Forall_app; split).
  - destruct Hsent as [Hsame|Hsent]; [by left|].
    right. apply Exists_app. right. apply Exists_app. by left.
Qed.

Lemma poll_cycle_law (c : Cycle) (st : RestrictedChannelForwarder.t) :
  forwarding_law st (poll_cycle c st).1.1 (poll_cycle c st).1.2.
Proof.
  unfold poll_cycle.
  assert (Forall (addressed st) [poll st]) as Hpoll by (by repeat constructor).
  destruct (get_new_messages (last_message_id_ st) (new_messages c))
    as [messages| |]; cbn [fst snd].
  - pose proof (forward_batch_law (backend c) 0 messages st) as Hbatch.
    assert (forwarding_law st
              (if negb (is_nil messages) then forward_batch (backend c) 0 messages st
               else (st, [])).1
              (if negb (is_nil messages) then forward_batch (backend c) 0 messages st
               else (st, [])).2) as Hwork.
    { destruct (negb (is_nil messages)); [done|apply forwarding_law_refl]. }
    destruct (if negb (is_nil messages) then forward_batch (backend c) 0 messages st
              else (st, [])) as [st1 events].
    cbn [fst snd] in Hwork. unfold breaking.
    destruct (bool_decide (mode (config_ st1) = OneTime) && negb (is_nil messages));
      cbn [fst snd];
      apply (forwarding_law_quiet st st1 [poll st] events [sleep_for _]);
      try done; by repeat constructor.
  - apply (forwarding_law_quiet st st [poll st] [] [sleep_for _]);
      [apply forwarding_law_refl|done|by repeat constructor].
  - apply (forwarding_law_quiet st st [poll st] [] []);
      [apply forwarding_law_refl|done|constructor].
Qed.

Lemma forward_loop_law (cycles : list Cycle) (st : RestrictedChannelForwarder.t) :
  forwarding_law st (forward_loop cycles st).1.1 (forward_loop cycles st).1.2.
Proof.
  revert st. induction cycles as [|c rest IH]; intros st; cbn [forward_loop].
  - apply forwarding_law_refl.
  - destruct (running_ st && negb (stop_requested c)); [|apply forwarding_law_refl].
    pose proof (poll_cycle_law c st) as Hcycle.
    destruct (poll_cycle c st) as [[st1 e1] [| |]]; cbn [fst snd] in *; try done.
    specialize (IH st1). destruct (forward_loop rest st1) as [[st2 e2] r].
    by eapply forwarding_law_app.
Qed.

Lemma forward_worker_law (cycles : list Cycle) (st : RestrictedChannelForwarder.t) :
  forwarding_law st (forward_worker cycles st).1.1 (forward_worker cycles st).1.2.
Proof.
  unfold forward_worker. pose proof (forward_loop_law cycles st) as Hloop.
  destruct (forward_loop cycles st) as [[st' events] [| |]]; cbn [fst snd] in *.
  - rewrite <- (app_nil_r events).
    apply (forwarding_law_quiet st st' [media_handler_start] events []);
      [done|by repeat constructor|constructor].
  - apply (forwarding_law_quiet st st' [media_handler_start] events [media_handler_stop]);
      [done|by repeat constructor..].
  - rewrite <- (app_nil_r events).
    apply (forwarding_law_quiet st st' [media_handler_start] events []);
      [done|by repeat constructor|constructor].
Qed.

(** X21. The forwarder thread talks to two chats only: over any run, every
    history request it sends asks for the source chat, and every message and
    every album it sends goes to the target chat; neither chat id changes
    while it runs. *)
Theorem forwarder_reads_source_writes_target (cycles : list Cycle)
    (st : RestrictedChannelForwarder.t) :
  Forall (addressed st) (forward_worker cycles st).1.2 ∧
  source_chat_id_ (forward_worker cycles st).1.1 = source_chat_id_ st ∧
  target_chat_id_ (forward_worker cycles st).1.1 = target_chat_id_ st.
Proof.
  destruct (forward_worker_law cycles st) as (Haddressed & Hsource & Htarget & _).
  done.
Qed.


Lemma omap_unrecognised (filters : list string) :
  Forall (λ name, parse_filter name = None) filters → omap parse_filter filters = [].
Proof. induction 1 as [|name rest Hname _ IH]; [done|]. cbn. by rewrite Hname. Qed.

(** X23. A configuration none of whose filter names is recognised forwards
    everything: [init] drops every name other than "text", "photo", "video",
    "document", "audio", "sticker", "animation" and "all" (the comparison is
    exact, so "Photo" or "photos" are dropped too), and with no filter left
    it installs the filter "all", which lets every message pass. *)
Theorem unrecognised_filters_forward_everything (config : ForwarderConfig)
    (st : RestrictedChannelForwarder.t) (m : message) :
  Forall (λ name, parse_filter name = None) (message_filters config) →
  message_filters_ (init config st) = [FilterAll] ∧
  should_forward_message (init config st) m = true.
Proof.
  intros Hnone. unfold should_forward_message, init, init_filters.
  cbn [message_filters_]. by rewrite (omap_unrecognised _ Hnone).
Qed.

Lemma unrecognised_filters_forward_everything_witness :
  let config :=
    {| mode := Continuous; wait_time_ms := 1000; max_history_messages := 100;
       max_concurrent_downloads := 2; max_concurrent_uploads := 2;
       message_filters := ["Photo"; "videos"; ""] |} in
  let st := Examples.forwarder Continuous 0 in
  message_filters_ (init config st) = [FilterAll] ∧
  should_forward_message (init config st) (Examples.text 1 "hello") = true.
Proof.
  intros config st.
  apply (unrecognised_filters_forward_everything config st (Examples.text 1 "hello")).
  repeat constructor.
Defined.

#[local] Instance by_id_total : Total by_id.
Proof. intros a b. unfold by_id. lia. Qed.

Lemma newer_than_non_null (cursor : Z) (messages : list message) :
  newer_than cursor (Some <$> messages)
  = Some (filter (λ m, cursor < id_ m) messages).
Proof.
  induction messages as [|m rest IH]; [done|].
  cbn [fmap list_fmap newer_than]. fold (list_fmap _ _ Some rest).
  change (list_fmap message (option message) Some rest) with (Some <$> rest).
  rewrite IH. cbn [mbind option_bind]. rewrite filter_cons.
  destruct (cursor <? id_ m) eqn:Hnewer.
  - apply Z.ltb_lt in Hnewer. by rewrite decide_True.
  - apply Z.ltb_ge in Hnewer. rewrite decide_False by lia. done.
Qed.

Lemma newer_than_null (cursor : Z) (history : MessageVector) :
  None ∈ history → newer_than cursor history = None.
Proof.
  induction history as [|[m|] rest IH]; cbn [newer_than].
  - intros Hin. by apply elem_of_nil in Hin.
  - intros [Heq|Hin]%elem_of_cons; [done|]. by rewrite IH.
  - done.
Qed.

Lemma of_group_filter (group_id : string) (history : MessageVector) :
  of_group group_id history
  = filter (λ m, get_media_group_id (Some m) = Some group_id) (omap id history).
Proof.
  induction history as [|[m|] rest IH]; cbn [of_group]; [done| |done].
  change (omap id (Some m :: rest)) with (m :: omap id rest).
  rewrite filter_cons. case_decide; by rewrite IH.
Qed.

(** X24. Both readers of the chat history return their selection in
    ascending order of message id, with nothing lost and nothing repeated:
    [get_new_messages] the messages of the answer whose id is above the
    cursor, [get_media_group_messages] the messages of the answer that bear
    the album id (a null entry is skipped there, while [get_new_messages]
    dereferences it). *)
Theorem history_reads_are_sorted_selections (cursor : Z) (group_id : string)
    (messages : list message) (history : MessageVector) :
  (∃ batch,
     get_new_messages cursor (Answered (Some <$> messages)) = Ret batch ∧
     Sorted by_id batch ∧
     batch ≡ₚ filter (λ m, cursor < id_ m) messages) ∧
  (None ∈ history → get_new_messages cursor (Answered history) = Crash) ∧
  (∃ members,
     get_media_group_messages group_id (Answered history) = Ret members ∧
     Sorted by_id members ∧
     members ≡ₚ filter (λ m, get_media_group_id (Some m) = Some group_id)
                       (omap id history)).
Proof.
  split; [|split].
  - unfold get_new_messages. rewrite newer_than_non_null.
    eexists. split; [reflexivity|]. unfold sort_by_id.
    split; [apply (Sorted_merge_sort by_id)|apply merge_sort_Permutation].
  - intros Hnull. unfold get_new_messages. by rewrite newer_than_null.
  - unfold get_media_group_messages. eexists. split; [reflexivity|].
    unfold sort_by_id. rewrite <- of_group_filter.
    split; [apply (Sorted_merge_sort by_id)|apply merge_sort_Permutation].
Qed.

(** X25. The forwarder does not forward voice notes and video notes: they
    are media messages for [utils.cpp], but not for the forwarder's own
    test, so [forward_message] returns [false] for them without a download
    or a request, and the loop, when the filter lets such a message pass,
    counts it as failed and leaves the cursor behind it. *)
Theorem voice_and_video_notes_are_not_forwarded (b : Backend)
    (st : RestrictedChannelForwarder.t) (m : message) :
  utils.is_media_message (Some m) = true →
  is_media_message (get_id (content_ m)) = false →
  (get_id (content_ m) = messageVoiceNote ∨ get_id (content_ m) = messageVideoNote) ∧
  forward_message b st m = (Ret false, []) ∧
  (should_forward_message st m = true →
   forward_one b m st = (with_failed_count st (failed_count_ st + 1), [])).
Proof.
  unfold utils.is_media_message, is_media_message, forward_one, forward_message,
    get_media_group_id.
  destruct (get_id (content_ m)) eqn:Hid; try done; intros _ _;
    (split; [by (left + right)|]); (split; [done|]); by intros ->.
Qed.

Lemma voice_and_video_notes_are_not_forwarded_witness :
  let m := {| id_ := 12; chat_id_ := -1001;
              content_ := {| get_id := messageVoiceNote; media_album_id_ := "";
                             text_ := "listen" |} |} in
  let st := Examples.forwarder Continuous 11 in
  (get_id (content_ m) = messageVoiceNote ∨ get_id (content_ m) = messageVideoNote) ∧
  forward_message (Examples.obliging [Some m]) st m = (Ret false, []) ∧
  (should_forward_message st m = true →
   forward_one (Examples.obliging [Some m]) m st
     = (with_failed_count st (failed_count_ st + 1), [])).
Proof.
  intros m st.
  apply (voice_and_video_notes_are_not_forwarded (Examples.obliging [Some m]) st m).
  - reflexivity.
  - reflexivity.
Defined.






Lemma no_download_among_queries (x : message) (sent : list Request) :
  download x ∉ map query sent.
Proof. by intros (y & Heq & _)%list_elem_of_In%in_map_iff. Qed.

Lemma forward_media_group_downloads (b : Backend) (st : RestrictedChannelForwarder.t)
    (members : list message) (x : message) :
  download x ∈ (forward_media_group b st members).2 → x ∈ members.
Proof.
  assert (download x ∈ map download members → x ∈ members) as Hmember.
  { intros (y & [= <-] & Hy)%list_elem_of_In%in_map_iff. by apply list_elem_of_In. }
  unfold forward_media_group.
  destruct (download_media_group_get (download_file b) members) as [group_task|];
    [|intros Hin; by apply elem_of_nil in Hin].
  cbn zeta. destruct (bool_decide _); [done|].
  destruct (upload_media_group_get (target_chat_id_ st) group_task (album_sent b))
    as [new_messages sent].
  destruct new_messages as [[|]| |]; cbn [snd];
    intros [Hin|Hin]%elem_of_app; try (by apply Hmember);
    by destruct (no_download_among_queries x sent).
Qed.

Lemma forward_message_downloads (b : Backend) (st : RestrictedChannelForwarder.t)
    (m x : message) :
  download x ∈ (forward_message b st m).2 → x = m.
Proof.
  unfold forward_message, forward_text_message, forward_media_message.
  destruct (bool_decide (get_id (content_ m) = messageText)).
  { destruct (message_sent b); cbn [snd];
      intros [Heq|Hin]%elem_of_cons; try done; by apply elem_of_nil in Hin. }
  destruct (is_media_message (get_id (content_ m)));
    [|intros Hin; by apply elem_of_nil in Hin].
  destruct (negb (bool_decide _)); cbn [snd].
  { intros [[= ->]|Hin]%elem_of_cons; [done|by apply elem_of_nil in Hin]. }
  destruct (upload_media_get (target_chat_id_ st) _ (message_sent b))
    as [new_message sent].
  destruct new_message; cbn [snd];
    intros [[= ->]|Hin]%elem_of_cons; try done;
    by destruct (no_download_among_queries x sent).
Qed.

Lemma forward_one_downloads (b : Backend) (m : message)
    (st : RestrictedChannelForwarder.t) (x : message) :
  download x ∈ (forward_one b m st).2 →
  x = m ∨ is_Some (get_media_group_id (Some x)).
Proof.
  unfold forward_one.
  destruct (should_forward_message st m); cbn [negb];
    [|intros Hin; by apply elem_of_nil in Hin].
  destruct (get_media_group_id (Some m)) as [group_id|] eqn:Hgroup.
  - destruct (media_group_processed group_id st); cbn [negb fst snd];
      [intros Hin; by apply elem_of_nil in Hin|].
    destruct (get_media_group_messages group_id (group_history b))
      as [members| |] eqn:Hmembers;
      try (intros [Heq|Hin]%elem_of_cons; [done|by apply elem_of_nil in Hin]).
    pose proof (forward_media_group_downloads b st members x) as Hdownloads.
    assert (x ∈ members → is_Some (get_media_group_id (Some x))) as Halbum.
    { intros Hx. exists group_id.
      by eapply ForwarderFacts.get_media_group_messages_elem. }
    destruct members as [|first rest];
      [intros [Heq|Hin]%elem_of_cons; [done|by apply elem_of_nil in Hin]|].
    destruct (forward_media_group b st (first :: rest)) as [[|] events];
      cbn [fst snd] in *;
      intros [Heq|Hin]%elem_of_cons; try done; right; by apply Halbum, Hdownloads.
  - pose proof (forward_message_downloads b st m x) as Hdownloads.
    destruct (forward_message b st m) as [[[|]| |] events]; cbn [fst snd] in *;
      intros Hin; left; by apply Hdownloads.
Qed.

Lemma forward_batch_downloads (backend : nat → Backend) (i : nat)
    (batch : list message) (st : RestrictedChannelForwarder.t) (x : message) :
  download x ∈ (forward_batch backend i batch st).2 →
  x ∈ batch ∨ is_Some (get_media_group_id (Some x)).
Proof.
  revert i st. induction batch as [|m rest IH]; intros i st; cbn [forward_batch].
  - intros Hin. by apply elem_of_nil in Hin.
  - pose proof (forward_one_downloads (backend i) m st x) as Hone.
    destruct (forward_one (backend i) m st) as [st1 e1].
    specialize (IH (S i) st1).
    destruct (forward_batch backend (S i) rest st1) as [st2 e2]. cbn [fst snd] in *.
    intros [Hin|Hin]%elem_of_app.
    + destruct (Hone Hin) as [->|Halbum]; [left; by left|by right].
    + destruct (IH Hin) as [Hrest|Halbum]; [left; by right|by right].
Qed.

Lemma newer_than_above (cursor : Z) (history : MessageVector)
    (newer : list message) (x : message) :
  newer_than cursor history = Some newer → x ∈ newer → cursor < id_ x.
Proof.
  revert newer. induction history as [|[m|] rest IH]; intros newer; cbn [newer_than].
  - intros [= <-] Hin. by apply elem_of_nil in Hin.
  - destruct (newer_than cursor rest) as [newer'|]; [|done].
    cbn [mbind option_bind]. intros [= <-].
    destruct (cursor <? id_ m) eqn:Hnewer.
    + intros [->|Hin]%elem_of_cons; [by apply Z.ltb_lt|by eapply IH].
    + by eapply IH.
  - done.
Qed.

Lemma poll_cycle_downloads (c : Cycle) (st : RestrictedChannelForwarder.t) :
  downloads_new_or_album (last_message_id_ st) (poll_cycle c st).1.2.
Proof.
  intros x. unfold poll_cycle.
  destruct (get_new_messages (last_message_id_ st) (new_messages c))
    as [batch| |] eqn:Hbatch; cbn [fst snd].
  - assert (∀ y, y ∈ batch → last_message_id_ st < id_ y) as Habove.
    { unfold get_new_messages in Hbatch.
      destruct (new_messages c) as [history| |]; [|done|done].
      destruct (newer_than (last_message_id_ st) history) as [newer|] eqn:Hnewer;
        [|done].
      injection Hbatch as <-. intros y Hy. unfold sort_by_id in Hy.
      rewrite merge_sort_Permutation in Hy. by eapply newer_than_above. }
    assert (download x ∈ (if negb (is_nil batch)
                          then forward_batch (backend c) 0 batch st
                          else (st, [])).2 →
            last_message_id_ st < id_ x ∨ is_Some (get_media_group_id (Some x)))
      as Hwork.
    { destruct (negb (is_nil batch)); [|intros Hin; by apply elem_of_nil in Hin].
      intros [Hy|Halbum]%forward_batch_downloads; [left; by apply Habove|by right]. }
    destruct (if negb (is_nil batch) then forward_batch (backend c) 0 batch st
              else (st, [])) as [st1 events].
    cbn [fst snd] in Hwork. unfold breaking.
    destruct (_ && _); cbn [fst snd];
      intros [Heq|Hin]%elem_of_cons; try done;
      apply elem_of_app in Hin as [Hin|Hin]; try (by apply Hwork);
      apply elem_of_cons in Hin as [Heq|Hin]; try done;
      by apply elem_of_nil in Hin.
  - intros [Heq|Hin]%elem_of_cons; [done|].
    apply elem_of_cons in Hin as [Heq|Hin]; [done|by apply elem_of_nil in Hin].
  - intros [Heq|Hin]%elem_of_cons; [done|by apply elem_of_nil in Hin].
Qed.

Lemma forward_loop_downloads (cycles : list Cycle) (st : RestrictedChannelForwarder.t) :
  downloads_new_or_album (last_message_id_ st) (forward_loop cycles st).1.2.
Proof.
  revert st. induction cycles as [|c rest IH]; intros st x; cbn [forward_loop].
  - intros Hin. by apply elem_of_nil in Hin.
  - destruct (running_ st && negb (stop_requested c));
      [|intros Hin; by apply elem_of_nil in Hin].
    pose proof (poll_cycle_downloads c st x) as Hcycle.
    pose proof (ForwarderFacts.poll_cycle_cursor c st) as Hcursor.
    destruct (poll_cycle c st) as [[st1 e1] [| |]]; cbn [fst snd] in *; try done.
    specialize (IH st1 x). destruct (forward_loop rest st1) as [[st2 e2] r].
    cbn [fst snd] in *. intros [Hin|Hin]%elem_of_app; [by apply Hcycle|].
    destruct (IH Hin) as [Habove|Halbum]; [left; lia|by right].
Qed.

(** X28. A media message that belongs to no album is not downloaded again
    once the cursor has reached it: over any run of the forwarder thread,
    every download is of a message whose id is above the cursor the run
    began with, or of a member of an album. (The members of an album are all
    fetched by the album id, wherever the cursor is.) *)
Theorem passed_message_is_not_downloaded_again (cycles : list Cycle)
    (st : RestrictedChannelForwarder.t) (m : message) :
  id_ m ≤ last_message_id_ st →
  get_media_group_id (Some m) = None →
  download m ∉ (forward_worker cycles st).1.2.
Proof.
  intros Hpassed Hsingle Hin.
  assert (download m ∈ (forward_loop cycles st).1.2) as Hloop.
  { revert Hin. unfold forward_worker.
    destruct (forward_loop cycles st) as [[st' events] [| |]]; cbn [fst snd].
    - by intros [Heq|Hin]%elem_of_cons.
    - intros [Heq|[Hin|Hin]%elem_of_app]%elem_of_cons; try done.
      apply elem_of_cons in Hin as [Heq|Hin]; [done|by apply elem_of_nil in Hin].
    - by intros [Heq|Hin]%elem_of_cons. }
  destruct (forward_loop_downloads cycles st m Hloop) as [Habove|[g Halbum]]; [lia|].
  congruence.
Qed.

Lemma passed_message_is_not_downloaded_again_witness :
  let m := {| id_ := 4; chat_id_ := -1001;
              content_ := {| get_id := messageVideo; media_album_id_ := "";
                             text_ := "clip" |} |} in
  let history := [Some (Examples.photo 5 ""); Some m] in
  download m ∉
    (forward_worker [Examples.cycle history (λ _, Examples.obliging history);
                     Examples.cycle history (λ _, Examples.obliging history)]
       (Examples.forwarder Continuous 4)).1.2.
Proof.
  intros m history.
  apply (passed_message_is_not_downloaded_again _ (Examples.forwarder Continuous 4) m).
  - reflexivity.
  - reflexivity.
Defined.




End ForwarderLaws.

(** ** The command line *)

Module CommandLineLaws.
Import main CommandLineSpec.

Lemma parse_arguments_setting (long : bool) (setting : Setting) (rest : list string)
    (o : Options) :
  parse_arguments (words long setting ++ rest) o = parse_arguments rest (with_setting o setting).
Proof. by destruct setting, long. Qed.

Lemma parse_arguments_settings (settings : list (bool * Setting)) (rest : list string)
    (o : Options) :
  parse_arguments (command_line settings ++ rest) o
  = parse_arguments rest (foldl with_setting o settings.*2).
Proof.
  revert o. induction settings as [|[long setting] more IH]; intros o; [done|].
  unfold command_line in *. cbn [fmap list_fmap concat fst snd foldl].
  rewrite <- app_assoc, parse_arguments_setting. apply IH.
Qed.

(** X30. The loop over the command line reads a sequence of settings back:
    for any settings, each given in the short or the long spelling of its
    option and with any value (one that looks like an option included), it
    ends with the options obtained by making the settings in order, so a
    later setting of an option overrides an earlier one. What follows the
    settings decides the rest: a help or version option makes [main] return
    0 whatever comes after, a word that is no option makes it return 1, and
    so does an option that needs a value and is the last word. *)
Theorem parse_arguments_reads_settings (settings : list (bool * Setting))
    (o : Options) (word : string) (rest : list string) :
  parse_arguments (command_line settings) o = proceed (foldl with_setting o settings.*2) ∧
  (word ∈ ["-h"; "--help"; "-v"; "--version"] →
   parse_arguments (command_line settings ++ word :: rest) o = returns 0) ∧
  (word ∉ known →
   parse_arguments (command_line settings ++ word :: rest) o = returns 1) ∧
  (word ∈ ["-c"; "--config"; "-s"; "--source"; "-t"; "--target"] →
   parse_arguments (command_line settings ++ [word]) o = returns 1).
Proof.
  split; [|split; [|split]].
  - rewrite <- (app_nil_r (command_line settings)). by rewrite parse_arguments_settings.
  - intros Hword. rewrite parse_arguments_settings.
    repeat (apply elem_of_cons in Hword as [->|Hword]; [done|]).
    by apply elem_of_nil in Hword.
  - intros Hword. rewrite parse_arguments_settings. cbn [parse_arguments].
    unfold is_option.
    repeat match goal with
           | |- context [String.eqb word ?s] =>
               destruct (String.eqb_spec word s) as [->|_];
               [exfalso; apply Hword; unfold known; set_solver|]
           end.
    done.
  - intros Hword. rewrite parse_arguments_settings.
    repeat (apply elem_of_cons in Hword as [->|Hword]; [done|]).
    by apply elem_of_nil in Hword.
Qed.

End CommandLineLaws.
